(** * HyperFixi usage scanner: a shallow embedding of [hyperfixi/scanner.py]

    The scanner extracts hyperscript snippets from template text with a
    fixed catalogue of regular expressions, classifies every snippet
    (commands, blocks, positional flag) and folds the classifications per
    file and per directory tree.

    Text is modelled over the code points U+0000..U+00FF (one [ascii] per
    code point); the character classes below are Python's [str] classes
    restricted to that range. *)

From Stdlib Require Import Ascii String List NArith Bool Lia.
From stdpp Require Import gmap strings list sorting.

(** ** Characters *)

Module Chr.

Definition code (c : ascii) : N := N_of_ascii c.

Definition between (lo hi : N) (c : ascii) : bool :=
  ((lo <=? code c) && (code c <=? hi))%N.

(** [\d] on [str] patterns: the decimal digits. *)
Definition is_digit (c : ascii) : bool := between 48 57 c.

(** [str.isalnum] on Latin-1: letters, digits, and the superscript and
    fraction code points that carry a numeric value. *)
Definition is_alnum (c : ascii) : bool :=
  between 48 57 c || between 65 90 c || between 97 122 c
  || (code c =? 170)%N || between 178 179 c || (code c =? 181)%N
  || between 185 186 c || between 188 190 c
  || between 192 214 c || between 216 246 c || between 248 255 c.

(** [\w]: alphanumeric or underscore. *)
Definition is_word (c : ascii) : bool := is_alnum c || (code c =? 95)%N.

(** [\s] and [str.isspace]. *)
Definition is_space (c : ascii) : bool :=
  between 9 13 c || between 28 32 c || (code c =? 133)%N || (code c =? 160)%N.

(** [str.lower] on one code point. *)
Definition lower (c : ascii) : ascii :=
  if between 65 90 c || between 192 214 c || between 216 222 c
  then ascii_of_N (code c + 32) else c.

End Chr.

(** ** Text *)

Abbreviation text := (list ascii).

Definition chars (s : string) : text := list_ascii_of_string s.
Definition str (t : text) : string := string_of_list_ascii t.

Definition lower_text (t : text) : text := map Chr.lower t.

(** [str.lower()] *)
Definition lower (s : string) : string := str (lower_text (chars s)).

Fixpoint lstrip (t : text) : text :=
  match t with
  | c :: t' => if Chr.is_space c then lstrip t' else t
  | [] => []
  end.

Definition rstrip (t : text) : text := rev (lstrip (rev t)).

(** [str.strip()] with no argument. *)
Definition strip (t : text) : text := rstrip (lstrip t).

Fixpoint starts_with (p t : text) : bool :=
  match p, t with
  | [], _ => true
  | a :: p', b :: t' => if Ascii.eqb a b then starts_with p' t' else false
  | _ :: _, [] => false
  end.

(** [p in t] on strings: [p] occurs in [t] as a contiguous run. *)
Fixpoint contains (p t : text) : bool :=
  starts_with p t ||
  match t with
  | [] => false
  | _ :: t' => contains p t'
  end.

(** ** The regular-expression fragment used by the catalogue

    Python's [re] is a backtracking matcher. Every quantifier in the
    catalogue applies to a single-character class, so the fragment is:
    classes, bounded repetition of a class (greedy or lazy), the word
    boundary, concatenation and ordered alternation. *)

Module Re.

Inductive cset : Type :=
| CDot                      (* .                      *)
| CLit (c : ascii)          (* a literal character    *)
| CDigit                    (* \d                     *)
| CWord                     (* \w                     *)
| CSpace                    (* \s                     *)
| COr (a b : cset)          (* [ab]                   *)
| CNot (a : cset).          (* [^a]                   *)

Inductive re : Type :=
| Eps
| One (cs : cset)
| Rep (greedy : bool) (lo : nat) (hi : option nat) (cs : cset)
| Bnd                       (* \b *)
| Cat (a b : re)
| Alt (a b : re).

Record flags := { ignorecase : bool; dotall : bool }.

(** A compiled pattern. Every pattern of the catalogue has exactly one
    capture group, always on the matching path: what precedes it, the
    group, what follows it. *)
Record pattern := { fl : flags; pre : re; grp : re; post : re }.

Fixpoint mem (f : flags) (cs : cset) (c : ascii) : bool :=
  match cs with
  | CDot => dotall f || negb (Ascii.eqb c "010")
  | CLit l => if ignorecase f then Ascii.eqb (Chr.lower c) (Chr.lower l)
              else Ascii.eqb c l
  | CDigit => Chr.is_digit c
  | CWord => Chr.is_word c
  | CSpace => Chr.is_space c
  | COr a b => mem f a c || mem f b c
  | CNot a => negb (mem f a c)
  end.

(** A position in the subject: the character just before it (if any)
    and the text from it on. *)
Record cursor := { before : option ascii; rest : text }.

Definition word_before (k : cursor) : bool :=
  match before k with Some c => Chr.is_word c | None => false end.
Definition word_after (k : cursor) : bool :=
  match rest k with c :: _ => Chr.is_word c | [] => false end.
Definition at_boundary (k : cursor) : bool :=
  xorb (word_before k) (word_after k).

(** All the cursors reachable by consuming 0, 1, 2, ... characters of
    the class, shortest first. *)
Fixpoint spans (p : ascii -> bool) (b : option ascii) (s : text) : list cursor :=
  {| before := b; rest := s |} ::
  match s with
  | c :: s' => if p c then spans p (Some c) s' else []
  | [] => []
  end.

Definition window (lo : nat) (hi : option nat) (l : list cursor) : list cursor :=
  match hi with
  | Some h => take (S h - lo) (drop lo l)
  | None => drop lo l
  end.

(** [run f r k]: the cursors at which [r] can stop when started at [k],
    in the order a backtracking matcher tries them. *)
Fixpoint run (f : flags) (r : re) (k : cursor) : list cursor :=
  match r with
  | Eps => [k]
  | One cs =>
      match rest k with
      | c :: s' => if mem f cs c then [{| before := Some c; rest := s' |}] else []
      | [] => []
      end
  | Rep greedy lo hi cs =>
      let w := window lo hi (spans (mem f cs) (before k) (rest k)) in
      if greedy then rev w else w
  | Bnd => if at_boundary k then [k] else []
  | Cat a b => flat_map (run f b) (run f a k)
  | Alt a b => run f a k ++ run f b k
  end.

(** What was consumed between two cursors of the same subject. *)
Definition consumed (k k' : cursor) : text :=
  take (length (rest k) - length (rest k')) (rest k).

(** A match: the text of group 1 and the length of the whole match. *)
Record mtch := { group1 : text; span : nat }.

(** Every way the pattern matches at [k], in backtracking order. *)
Definition attempts (p : pattern) (k : cursor) : list mtch :=
  flat_map (fun k1 =>
    flat_map (fun k2 =>
      map (fun k3 => {| group1 := consumed k1 k2;
                        span := length (consumed k k3) |})
          (run (fl p) (post p) k2))
      (run (fl p) (grp p) k1))
    (run (fl p) (pre p) k).

Fixpoint first_advancing (l : list mtch) : option mtch :=
  match l with
  | [] => None
  | m :: l' => match span m with O => first_advancing l' | S _ => Some m end
  end.

(** The match the engine reports at [k]; with [must_advance] an empty
    match is rejected and the engine backtracks. *)
Definition match_at (must_advance : bool) (p : pattern) (k : cursor) : option mtch :=
  if must_advance then first_advancing (attempts p k) else head (attempts p k).

(** [Pattern.search]: the leftmost match. *)
Fixpoint search_from (p : pattern) (b : option ascii) (s : text) : option mtch :=
  match match_at false p {| before := b; rest := s |} with
  | Some m => Some m
  | None =>
      match s with
      | c :: s' => search_from p (Some c) s'
      | [] => None
      end
  end.

Definition search (p : pattern) (s : text) : option mtch := search_from p None s.

(** [Pattern.finditer]: successive non-overlapping matches, left to
    right. [skip] counts the characters still covered by the previous
    match. After an empty match the engine retries the same position
    for a non-empty one. *)
Fixpoint scan (p : pattern) (b : option ascii) (s : text) (skip : nat) : list mtch :=
  let next n :=
    match s with
    | c :: s' => scan p (Some c) s' n
    | [] => []
    end in
  match skip with
  | S n => next n
  | O =>
      let k := {| before := b; rest := s |} in
      match match_at false p k with
      | None => next O
      | Some m =>
          match span m with
          | S n => m :: next n
          | O =>
              m :: match match_at true p k with
                   | Some m' => m' :: next (pred (span m'))
                   | None => next O
                   end
          end
      end
  end.

Definition finditer (p : pattern) (s : text) : list mtch := scan p None s 0.

(** Pattern syntax helpers. *)
Definition lit (s : string) : re :=
  fold_right (fun c r => Cat (One (CLit c)) r) Eps (chars s).
Definition star (cs : cset) : re := Rep true 0 None cs.
Definition plus (cs : cset) : re := Rep true 1 None cs.
Definition opt (cs : cset) : re := Rep true 0 (Some 1) cs.
Definition lazy_star (cs : cset) : re := Rep false 0 None cs.
Definition seq (l : list re) : re := fold_right Cat Eps l.
Fixpoint alts (l : list re) : re :=
  match l with
  | [] => Eps
  | [r] => r
  | r :: l' => Alt r (alts l')
  end.

End Re.

(** ** Pattern catalogue *)

Import Re.

Definition dq : ascii := "034"%char.   (* double quote *)
Definition sq : ascii := "039"%char.   (* single quote *)
Definition bq : ascii := "096"%char.   (* backtick *)

Definition plain : flags := {| ignorecase := false; dotall := false |}.
Definition DOTALL : flags := {| ignorecase := false; dotall := true |}.
Definition IGNORECASE : flags := {| ignorecase := true; dotall := false |}.
Definition DOTALL_IGNORECASE : flags := {| ignorecase := true; dotall := true |}.

Definition ws_star : re := star CSpace.
Definition ws_plus : re := plus CSpace.
Definition quote_class : cset := COr (CLit sq) (CLit dq).

(** An attribute carrier: the name, an opening quote [q], any run of
    characters other than [q] (group 1), the closing quote. *)
Definition attr_pattern (name : string) (q : ascii) : pattern :=
  {| fl := plain;
     pre := seq [lit name; One (CLit q)];
     grp := star (CNot (CLit q));
     post := One (CLit q) |}.

(** [\{%\s*tag\s+Q([^Q]+)Q\s*%\}] *)
Definition simple_tag_pattern (tag : string) (q : ascii) : pattern :=
  {| fl := plain;
     pre := seq [lit "{%"; ws_star; lit tag; ws_plus; One (CLit q)];
     grp := plus (CNot (CLit q));
     post := seq [One (CLit q); ws_star; lit "%}"] |}.

Definition HYPERSCRIPT_PATTERNS : list pattern :=
  [ (* Standard attributes *)
    attr_pattern "_=" dq;
    attr_pattern "_=" sq;
    attr_pattern "_=" bq;
    (* JSX patterns *)
    {| fl := plain;
       pre := seq [lit "_={"; One (CLit bq)];
       grp := plus (CNot (CLit bq));
       post := seq [One (CLit bq); lit "}"] |};
    {| fl := plain;
       pre := seq [lit "_={"; One quote_class];
       grp := plus (CNot quote_class);
       post := seq [One quote_class; lit "}"] |};
    (* data-hs variant *)
    attr_pattern "data-hs=" dq;
    attr_pattern "data-hs=" sq;
    (* Django block tag *)
    {| fl := DOTALL;
       pre := seq [lit "{%"; ws_star; lit "hs"; ws_star; lit "%}"];
       grp := lazy_star CDot;
       post := seq [lit "{%"; ws_star; lit "endhs"; ws_star; lit "%}"] |};
    (* Django simple tags *)
    simple_tag_pattern "hs_attr" dq;
    simple_tag_pattern "hs_attr" sq;
    simple_tag_pattern "hs_script" dq;
    simple_tag_pattern "hs_script" sq;
    (* Script tags *)
    {| fl := DOTALL_IGNORECASE;
       pre := seq [lit "<script"; star (CNot (CLit ">")); lit "type=";
                   opt quote_class; lit "text/hyperscript"; opt quote_class;
                   star (CNot (CLit ">")); lit ">"];
       grp := lazy_star CDot;
       post := lit "</script>" |} ].

(** [\b(w1|w2|...)\b], case-insensitive. *)
Definition keyword_pattern (words : list string) : pattern :=
  {| fl := IGNORECASE; pre := Bnd; grp := alts (map lit words); post := Bnd |}.

Definition COMMAND_PATTERN : pattern :=
  keyword_pattern
    ["toggle"; "add"; "remove"; "removeClass"; "show"; "hide"; "set"; "get";
     "put"; "append"; "take"; "increment"; "decrement"; "log"; "send";
     "trigger"; "wait"; "transition"; "go"; "call"; "focus"; "blur"; "return"].

(** A block pattern without a group of its own is given the empty group
    at its end; only [search]'s success is ever read from these. *)
Definition bare_keyword (w : string) : pattern :=
  {| fl := IGNORECASE; pre := seq [Bnd; lit w; Bnd]; grp := Eps; post := Eps |}.

Definition repeat_count : re :=
  alts [plus CDigit;
        Cat (One (CLit ":")) (plus CWord);
        Cat (One (CLit "$")) (plus CWord);
        plus (COr CWord (CLit "."))].

Definition REPEAT_PATTERN : pattern :=
  {| fl := IGNORECASE;
     pre := seq [Bnd; lit "repeat"; ws_plus];
     grp := repeat_count;
     post := seq [ws_plus; lit "time"; opt (CLit "s"); Bnd] |}.

Definition FOR_PATTERN : pattern :=
  {| fl := IGNORECASE;
     pre := seq [Bnd; lit "for"; ws_plus];
     grp := alts [lit "each"; lit "every"];
     post := Bnd |}.

(** The dict, in insertion order. *)
Definition BLOCK_PATTERNS : list (string * pattern) :=
  [ ("if", bare_keyword "if");
    ("unless", bare_keyword "unless");
    ("repeat", REPEAT_PATTERN);
    ("for", FOR_PATTERN);
    ("while", bare_keyword "while");
    ("fetch", bare_keyword "fetch");
    ("async", bare_keyword "async") ].

Definition POSITIONAL_PATTERN : pattern :=
  keyword_pattern ["first"; "last"; "next"; "previous"; "closest"; "parent"].

(** ** Usage records *)

Record FileUsage := {
  commands : gset string;
  blocks : gset string;
  positional : bool
}.

(** [FileUsage()] *)
Definition FileUsage_new : FileUsage :=
  {| commands := ∅; blocks := ∅; positional := false |}.

(** [FileUsage.__bool__]: an empty set is falsy. *)
Definition set_truthy (s : gset string) : bool := bool_decide (s ≠ ∅).
Definition FileUsage_bool (u : FileUsage) : bool :=
  set_truthy (commands u) || set_truthy (blocks u) || positional u.

(** [FileUsage.merge], as the new value of the receiver. *)
Definition merge (self other : FileUsage) : FileUsage :=
  {| commands := commands self ∪ commands other;
     blocks := blocks self ∪ blocks other;
     positional := if positional other then true else positional self |}.

(** ** Classifier *)

Definition is_some {A} (o : option A) : bool :=
  match o with Some _ => true | None => false end.

Definition detect_commands (script : text) : gset string :=
  fold_left (fun acc m => acc ∪ {[ lower (str (group1 m)) ]})
            (finditer COMMAND_PATTERN script) ∅.

Definition detect_blocks (script : text) : gset string :=
  fold_left (fun acc '(block_name, pattern) =>
               if is_some (search pattern script)
               then if String.eqb block_name "unless"
                    then acc ∪ {[ "if" ]}
                    else acc ∪ {[ block_name ]}
               else acc)
            BLOCK_PATTERNS ∅.

Definition analyze_script (script : string) : FileUsage :=
  {| commands := detect_commands (chars script);
     blocks := detect_blocks (chars script);
     positional := is_some (search POSITIONAL_PATTERN (chars script)) |}.

(** ** Extractor *)

Definition extract_hyperscript (content : string) : list string :=
  flat_map (fun pattern =>
    flat_map (fun m =>
      let script := strip (group1 m) in
      match script with
      | [] => []
      | _ => [str script]
      end) (finditer pattern (chars content)))
    HYPERSCRIPT_PATTERNS.

(** ** Diagnostics and failures

    [print] is modelled by a log of the lines written, each line kept as
    the values interpolated into it. Exceptions are values; [try]/[except
    Exception] catches the ones deriving from [Exception]. *)

Inductive exn : Type :=
| FileNotFoundError
| PermissionError
| IsADirectoryError
| UnicodeDecodeError
| UnicodeEncodeError
| OSError
| KeyboardInterrupt.

(** [isinstance(e, Exception)] *)
Definition is_Exception (e : exn) : bool :=
  match e with KeyboardInterrupt => false | _ => true end.

Inductive diag : Type :=
| Scanned (file_path : string) (cmds blks : list string) (pos : bool)
| ErrorReading (path : string) (e : exn).

Inductive outcome (A : Type) : Type :=
| Returned (a : A)
| Raised (e : exn).
Arguments Returned {A} a.
Arguments Raised {A} e.

(** A computation: its outcome and the lines it printed. *)
Definition io (A : Type) : Type := outcome A * list diag.

Definition ret {A} (a : A) : io A := (Returned a, []).
Definition raise {A} (e : exn) : io A := (Raised e, []).
Definition print (d : diag) : io unit := (Returned tt, [d]).
Definition bind {A B} (m : io A) (f : A -> io B) : io B :=
  match m with
  | (Returned a, out) => let '(r, out') := f a in (r, out ++ out')
  | (Raised e, out) => (Raised e, out)
  end.

Notation "x <- m ;; k" := (bind m (fun x => k))
  (at level 100, m at next level, right associativity).
Notation "m ;;; k" := (bind m (fun _ => k))
  (at level 100, right associativity).

(** [try: body except Exception as e: handler e] *)
Definition try_except {A} (body : io A) (handler : exn -> io A) : io A :=
  match body with
  | (Raised e, out) =>
      if is_Exception e
      then let '(r, out') := handler e in (r, out ++ out')
      else (Raised e, out)
  | done => done
  end.

(** [sorted(s)] on a set of strings. *)
Definition sorted (s : gset string) : list string :=
  merge_sort String.le (elements s).

(** ** Scanner *)

Record Scanner := {
  include_extensions : gset string;
  exclude_patterns : list string;
  debug : bool
}.

Definition default_extensions : gset string :=
  {[ ".html"; ".htm"; ".txt"; ".xml"; ".jinja"; ".jinja2" ]}.
Definition default_excludes : list string :=
  ["__pycache__"; ".git"; "node_modules"; ".venv"; "venv"; "site-packages"].

(** [Scanner.__init__]: [x or default] takes the default for [None] and
    for an empty collection alike. *)
Definition Scanner_init (include_extensions : option (gset string))
    (exclude_patterns : option (list string)) (debug : bool) : Scanner :=
  {| include_extensions :=
       match include_extensions with
       | Some e => if set_truthy e then e else default_extensions
       | None => default_extensions
       end;
     exclude_patterns :=
       match exclude_patterns with
       | Some (p :: l) => p :: l
       | _ => default_excludes
       end;
     debug := debug |}.

(** *** Paths ([pathlib], POSIX flavour): a path is its string form. *)

Fixpoint rfind (c : ascii) (t : text) : option nat :=
  match t with
  | [] => None
  | x :: t' =>
      match rfind c t' with
      | Some i => Some (S i)
      | None => if Ascii.eqb x c then Some 0 else None
      end
  end.

(** [PurePath.name]: the final component. *)
Definition path_name (p : text) : text :=
  match rfind "/" p with
  | Some i => drop (S i) p
  | None => p
  end.

(** [PurePath.suffix]: from the last dot of the name, unless that dot is
    the first or the last character of the name. *)
Definition path_suffix (p : text) : text :=
  let name := path_name p in
  match rfind "." name with
  | Some i => if (0 <? i) && (i <? length name - 1) then drop i name else []
  | None => []
  end.

Fixpoint excluded (patterns : list string) (path_str : text) : bool :=
  match patterns with
  | [] => false
  | pattern :: l =>
      if contains (chars pattern) path_str then true else excluded l path_str
  end.

Definition should_scan (self : Scanner) (path : string) : bool :=
  if negb (bool_decide (lower (str (path_suffix (chars path))) ∈ include_extensions self))
  then false
  else if excluded (exclude_patterns self) (chars path) then false
  else true.

Definition scan_content (self : Scanner) (content file_path : string)
    : io FileUsage :=
  let usage :=
    fold_left (fun usage script => merge usage (analyze_script script))
              (extract_hyperscript content) FileUsage_new in
  (if debug self && FileUsage_bool usage
   then print (Scanned file_path (sorted (commands usage))
                       (sorted (blocks usage)) (positional usage))
   else ret tt) ;;;
  ret usage.

(** *** File system

    A file system whose path queries always answer; together with the
    [print] above, which always writes, this is the scanner on a host
    that never fails. The host whose calls can raise is [Host] below,
    and the two agree where that host never fails. *)

Record FS := {
  fs_exists : string -> bool;
  fs_is_file : string -> bool;
  fs_rglob : string -> exn + list string;
  fs_read_text : string -> exn + string
}.

Definition read_text (fs : FS) (path : string) : io string :=
  match fs_read_text fs path with
  | inl e => raise e
  | inr content => ret content
  end.

Definition rglob (fs : FS) (directory : string) : io (list string) :=
  match fs_rglob fs directory with
  | inl e => raise e
  | inr l => ret l
  end.

Definition scan_file (self : Scanner) (fs : FS) (path : string) : io FileUsage :=
  try_except
    (content <- read_text fs path ;;
     scan_content self content path)
    (fun e =>
       (if debug self then print (ErrorReading path e) else ret tt) ;;;
       ret FileUsage_new).

Fixpoint scan_paths (self : Scanner) (fs : FS) (paths : list string)
    (results : gmap string FileUsage) : io (gmap string FileUsage) :=
  match paths with
  | [] => ret results
  | path :: l =>
      if fs_is_file fs path && should_scan self path
      then usage <- scan_file self fs path ;;
           scan_paths self fs l
             (if FileUsage_bool usage then <[path := usage]> results else results)
      else scan_paths self fs l results
  end.

Definition scan_directory (self : Scanner) (fs : FS) (directory : string)
    : io (gmap string FileUsage) :=
  let results : gmap string FileUsage := ∅ in
  if negb (fs_exists fs directory) then ret results
  else paths <- rglob fs directory ;;
       scan_paths self fs paths results.

(** [results.update(dir_results)]: entries of [dir_results] win. *)
Fixpoint scan_directories_from (self : Scanner) (fs : FS)
    (directories : list string) (results : gmap string FileUsage)
    : io (gmap string FileUsage) :=
  match directories with
  | [] => ret results
  | directory :: l =>
      dir_results <- scan_directory self fs directory ;;
      scan_directories_from self fs l (dir_results ∪ results)
  end.

Definition scan_directories (self : Scanner) (fs : FS)
    (directories : list string) : io (gmap string FileUsage) :=
  scan_directories_from self fs directories ∅.

(** ** Usage records as objects

    [FileUsage.merge] updates its receiver in place. Here a usage object
    holds two references to set objects and a flag; both kinds of object
    live in a store, so two usage objects may share a set. *)

Module Obj.

Abbreviation loc := nat.

Record usage_obj := {
  commands_at : loc;
  blocks_at : loc;
  positional_of : bool
}.

Record store := {
  sets : gmap loc (gset string);
  objs : gmap loc usage_obj
}.

(** [s.update(t)] on the set objects at [s] and [t]. *)
Definition set_update (h : gmap loc (gset string)) (s t : loc)
    : option (gmap loc (gset string)) :=
  x ← h !! s; y ← h !! t; Some (<[s := x ∪ y]> h).

(** [self.merge(other)]; [None] when a reference dangles. *)
Definition merge (σ : store) (self other : loc) : option store :=
  a ← objs σ !! self;
  b ← objs σ !! other;
  h1 ← set_update (sets σ) (commands_at a) (commands_at b);
  h2 ← set_update h1 (blocks_at a) (blocks_at b);
  Some {| sets := h2;
          objs := if positional_of b
                  then <[self := {| commands_at := commands_at a;
                                    blocks_at := blocks_at a;
                                    positional_of := true |}]> (objs σ)
                  else objs σ |}.

(** The value a usage object denotes in a store. *)
Definition view (σ : store) (l : loc) : option FileUsage :=
  o ← objs σ !! l;
  c ← sets σ !! commands_at o;
  b ← sets σ !! blocks_at o;
  Some {| commands := c; blocks := b; positional := positional_of o |}.

(** Two usage objects whose sets are shared crosswise: the command set
    of each is the block set of the other. *)
Definition crossed : store :=
  {| sets := {[ 10 := {[ "show" ]}; 11 := {[ "if" ]} ]};
     objs := {[ 0 := {| commands_at := 10; blocks_at := 11; positional_of := false |};
                1 := {| commands_at := 11; blocks_at := 10; positional_of := false |} ]} |}.

(** Two usage objects with four set objects of their own. *)
Definition apart : store :=
  {| sets := {[ 10 := {[ "show" ]}; 11 := ∅; 12 := ∅; 13 := {[ "if" ]} ]};
     objs := {[ 0 := {| commands_at := 10; blocks_at := 11; positional_of := false |};
                1 := {| commands_at := 12; blocks_at := 13; positional_of := true |} ]} |}.

End Obj.

(** ** Sample inputs and invariants *)

(** A file system with nothing in it: every read fails. *)
Definition empty_fs : FS :=
  {| fs_exists := fun _ => false;
     fs_is_file := fun _ => false;
     fs_rglob := fun _ => inl FileNotFoundError;
     fs_read_text := fun _ => inl FileNotFoundError |}.

Definition default_scanner : Scanner := Scanner_init None None false.
Definition debug_scanner : Scanner := Scanner_init None None true.

(** A small tree: one file with an attribute carrier, one without any
    snippet, one directory, one file with a block-tag carrier. *)
Definition site : FS :=
  {| fs_exists := fun p => String.eqb p "templates";
     fs_is_file := fun p =>
       String.eqb p "templates/a.html" || String.eqb p "templates/b.html"
       || String.eqb p "templates/sub/c.txt";
     fs_rglob := fun p =>
       if String.eqb p "templates"
       then inr ["templates/a.html"; "templates/b.html"; "templates/sub";
                 "templates/sub/c.txt"]
       else inr [];
     fs_read_text := fun p =>
       if String.eqb p "templates/a.html"
       then inr ("<button _=" +:+ String dq "toggle .foo" +:+ String dq ">go</button>")
       else if String.eqb p "templates/b.html"
       then inr "<p>plain</p>"
       else if String.eqb p "templates/sub/c.txt"
       then inr "{% hs %}on click show #x{% endhs %}"
       else inl FileNotFoundError |}.

(** Every entry is what scanning its path returns, and is truthy. *)
Definition recorded (self : Scanner) (fs : FS) (m : gmap string FileUsage) : Prop :=
  forall path u, m !! path = Some u ->
    fst (scan_file self fs path) = Returned u /\ FileUsage_bool u = true.


(** ** Statements in the words of the specification *)

(** [p] occurs in [t] as a substring. *)
Definition occurs_in (p t : text) : Prop :=
  exists before after, t = before ++ p ++ after.

(** The path's extension is in [include_extensions] under a comparison
    that ignores case. *)
Definition extension_included_ci (self : Scanner) (path : string) : Prop :=
  exists e, e ∈ include_extensions self
            /\ lower e = lower (str (path_suffix (chars path))).

(** No exclusion pattern occurs in the path string. *)
Definition not_excluded (self : Scanner) (path : string) : Prop :=
  forall pattern, pattern ∈ exclude_patterns self ->
                  ~ occurs_in (chars pattern) (chars path).

(** A configuration whose only extension is written in upper case. *)
Definition upper_scanner : Scanner := Scanner_init (Some {[ ".HTML" ]}) None false.

(** ** What a regular expression matches

    [matches f r b w nxt]: the text [w], standing after the character
    [b] and before the text [nxt], is matched by [r]. The context is what
    the word boundary looks at. *)

Fixpoint advance (b : option ascii) (w : text) : option ascii :=
  match w with
  | [] => b
  | c :: w' => advance (Some c) w'
  end.

Definition within (hi : option nat) (n : nat) : Prop :=
  match hi with Some h => n <= h | None => True end.

Fixpoint matches (f : flags) (r : re) (b : option ascii) (w nxt : text) : Prop :=
  match r with
  | Eps => w = []
  | One cs => exists c, w = [c] /\ mem f cs c = true
  | Rep _ lo hi cs =>
      forallb (mem f cs) w = true /\ lo <= length w /\ within hi (length w)
  | Bnd => w = [] /\ at_boundary {| before := b; rest := nxt |} = true
  | Cat r1 r2 =>
      exists w1 w2, w = w1 ++ w2
        /\ matches f r1 b w1 (w2 ++ nxt)
        /\ matches f r2 (advance b w1) w2 nxt
  | Alt r1 r2 => matches f r1 b w nxt \/ matches f r2 b w nxt
  end.

(** The whole pattern, group included. *)
Definition whole (p : pattern) : re := Cat (pre p) (Cat (grp p) (post p)).

(** ** Phrases in the words of the specification *)

Definition ends_word (t : text) : bool :=
  match last t with Some c => Chr.is_word c | None => false end.
Definition starts_word (t : text) : bool :=
  match t with c :: _ => Chr.is_word c | [] => false end.

(** The same text up to the case of its letters. *)
Definition same_ci (w : text) (kw : string) : Prop :=
  lower_text w = lower_text (chars kw).

(** [s] contains the keyword [kw], in any case, as a whole word: neither
    preceded nor followed by a word character. *)
Definition contains_word (kw : string) (s : text) : Prop :=
  exists before w after,
    s = before ++ w ++ after /\ same_ci w kw
    /\ ends_word before = false /\ starts_word after = false.

Definition run_of (p : ascii -> bool) (w : text) : Prop :=
  w <> [] /\ forallb p w = true.

Definition blanks : text -> Prop := run_of Chr.is_space.
Definition decimal_integer : text -> Prop := run_of Chr.is_digit.
Definition identifier : text -> Prop := run_of Chr.is_word.
(** What the pattern accepts as its last alternative: any non-empty run
    of word characters and dots. *)
Definition word_dot_run : text -> Prop :=
  run_of (fun c => Chr.is_word c || Ascii.eqb c ".").

Definition repeat_count_text (w : text) : Prop :=
  decimal_integer w
  \/ (exists id, w = ":"%char :: id /\ identifier id)
  \/ (exists id, w = "$"%char :: id /\ identifier id)
  \/ word_dot_run w.

(** [s] contains, as whole words and in any case, the phrase
    repeat COUNT time or repeat COUNT times, the three parts separated by
    blanks, COUNT being what the pattern accepts. *)
Definition repeat_phrase (s : text) : Prop :=
  exists before kw ws1 count ws2 unit after,
    s = before ++ kw ++ ws1 ++ count ++ ws2 ++ unit ++ after
    /\ same_ci kw "repeat" /\ blanks ws1 /\ repeat_count_text count
    /\ blanks ws2 /\ (same_ci unit "time" \/ same_ci unit "times")
    /\ ends_word before = false /\ starts_word after = false.

(** The kind reported for an entry of [BLOCK_PATTERNS]. *)
Definition canonical_block (block_name : string) : string :=
  if String.eqb block_name "unless" then "if" else block_name.

(** ** Vocabulary constants and serialization *)

Definition VALID_COMMANDS : gset string :=
  {[ "toggle"; "add"; "remove"; "removeclass"; "show"; "hide"; "set"; "get";
     "put"; "append"; "take"; "increment"; "decrement"; "log"; "send";
     "trigger"; "wait"; "transition"; "go"; "call"; "focus"; "blur"; "return" ]}.

Definition VALID_BLOCKS : gset string :=
  {[ "if"; "repeat"; "for"; "while"; "fetch"; "async" ]}.

(** The alternatives of [COMMAND_PATTERN] and of [POSITIONAL_PATTERN]. *)
Definition command_words : list string :=
  ["toggle"; "add"; "remove"; "removeClass"; "show"; "hide"; "set"; "get";
   "put"; "append"; "take"; "increment"; "decrement"; "log"; "send";
   "trigger"; "wait"; "transition"; "go"; "call"; "focus"; "blur"; "return"].
Definition positional_words : list string :=
  ["first"; "last"; "next"; "previous"; "closest"; "parent"].

(** The dict built by [FileUsage.to_dict], one field per key. *)
Record usage_dict := {
  d_commands : list string;
  d_blocks : list string;
  d_positional : bool
}.

Definition to_dict (self : FileUsage) : usage_dict :=
  {| d_commands := sorted (commands self);
     d_blocks := sorted (blocks self);
     d_positional := positional self |}.

Record AggregatedUsage := {
  agg_commands : gset string;
  agg_blocks : gset string;
  agg_positional : bool;
  file_usage : gmap string FileUsage
}.

Record aggregate_dict := {
  a_commands : list string;
  a_blocks : list string;
  a_positional : bool;
  a_file_count : nat
}.

(** [AggregatedUsage.to_dict] *)
Definition AggregatedUsage_to_dict (self : AggregatedUsage) : aggregate_dict :=
  {| a_commands := sorted (agg_commands self);
     a_blocks := sorted (agg_blocks self);
     a_positional := agg_positional self;
     a_file_count := size (file_usage self) |}.

(** [s] contains, as whole words and in any case, for each or for
    every, the two words separated by blanks. *)
Definition for_phrase (s : text) : Prop :=
  exists before kw ws quant after,
    s = before ++ kw ++ ws ++ quant ++ after
    /\ same_ci kw "for" /\ blanks ws
    /\ (same_ci quant "each" \/ same_ci quant "every")
    /\ ends_word before = false /\ starts_word after = false.

(** A keyword made of word characters only. *)
Definition wordlike (kw : string) : Prop :=
  chars kw <> [] /\ forallb Chr.is_word (chars kw) = true.

(** The character before a position is a word character. *)
Definition word_behind (b : option ascii) : bool :=
  match b with Some c => Chr.is_word c | None => false end.

(** ** The repeat phrase in the words of the specification

    A dotted path expression: identifiers joined by single dots, so no
    leading, trailing or doubled dot. [expecting] says that an
    identifier has to start here. *)

Fixpoint dotted_from (expecting : bool) (t : text) : bool :=
  match t with
  | [] => negb expecting
  | c :: t' =>
      if Chr.is_word c then dotted_from false t'
      else if Ascii.eqb c "." then (if expecting then false else dotted_from true t')
      else false
  end.

Definition dotted_path_expression (w : text) : Prop := dotted_from true w = true.

Definition claimed_count (w : text) : Prop :=
  decimal_integer w
  \/ (exists id, w = ":"%char :: id /\ identifier id)
  \/ (exists id, w = "$"%char :: id /\ identifier id)
  \/ dotted_path_expression w.

Definition claimed_repeat_phrase (s : text) : Prop :=
  exists before kw ws1 count ws2 unit after,
    s = before ++ kw ++ ws1 ++ count ++ ws2 ++ unit ++ after
    /\ same_ci kw "repeat" /\ blanks ws1 /\ claimed_count count
    /\ blanks ws2 /\ (same_ci unit "time" \/ same_ci unit "times")
    /\ ends_word before = false /\ starts_word after = false.

(** A checker for the phrase on a given text: every way of cutting the
    text in seven is tried. *)

Fixpoint splits (s : text) : list (text * text) :=
  ([], s) ::
  match s with
  | [] => []
  | c :: s' => map (fun '(a, b) => (c :: a, b)) (splits s')
  end.

Definition exists_split (s : text) (P : text -> text -> bool) : bool :=
  existsb (fun '(a, b) => P a b) (splits s).

Definition run_of_b (p : ascii -> bool) (w : text) : bool :=
  match w with [] => false | _ => forallb p w end.

Definition same_ci_b (w : text) (kw : string) : bool :=
  bool_decide (lower_text w = lower_text (chars kw)).

Definition claimed_count_b (w : text) : bool :=
  run_of_b Chr.is_digit w
  || match w with
     | c :: id => (Ascii.eqb c ":" || Ascii.eqb c "$") && run_of_b Chr.is_word id
     | [] => false
     end
  || dotted_from true w.

Definition claimed_repeat_phrase_b (s : text) : bool :=
  exists_split s (fun before r1 =>
    negb (ends_word before) &&
    exists_split r1 (fun kw r2 =>
      same_ci_b kw "repeat" &&
      exists_split r2 (fun ws1 r3 =>
        run_of_b Chr.is_space ws1 &&
        exists_split r3 (fun count r4 =>
          claimed_count_b count &&
          exists_split r4 (fun ws2 r5 =>
            run_of_b Chr.is_space ws2 &&
            exists_split r5 (fun unit after =>
              (same_ci_b unit "time" || same_ci_b unit "times")
              && negb (starts_word after))))))).

(** ** The scanner on a host whose calls can fail

    [Path.exists] and [Path.is_file] re-raise the errors they do not
    recognise, and [print] raises when the stream cannot encode the
    line. Here every call into the host either answers or raises. *)

Module Host.

Record host := {
  present : string -> bool;                  (* the path exists *)
  path_exists : string -> exn + bool;        (* Path.exists()   *)
  path_is_file : string -> exn + bool;       (* Path.is_file()  *)
  path_rglob : string -> exn + list string;  (* Path.rglob("*") *)
  path_read_text : string -> exn + string;   (* Path.read_text  *)
  stdout_write : diag -> option exn          (* print: [None] when written *)
}.

(** When [exists()] answers, it answers the truth. *)
Definition sound (h : host) : Prop :=
  forall p b, path_exists h p = inr b -> b = present h p.

Definition call {A} (r : exn + A) : io A :=
  match r with
  | inl e => raise e
  | inr a => ret a
  end.

Definition print (h : host) (d : diag) : io unit :=
  match stdout_write h d with
  | Some e => raise e
  | None => (Returned tt, [d])
  end.

Definition scan_content (h : host) (self : Scanner) (content file_path : string)
    : io FileUsage :=
  let usage :=
    fold_left (fun usage script => merge usage (analyze_script script))
              (extract_hyperscript content) FileUsage_new in
  (if debug self && FileUsage_bool usage
   then print h (Scanned file_path (sorted (commands usage))
                         (sorted (blocks usage)) (positional usage))
   else ret tt) ;;;
  ret usage.

Definition scan_file (h : host) (self : Scanner) (path : string) : io FileUsage :=
  try_except
    (content <- call (path_read_text h path) ;;
     scan_content h self content path)
    (fun e =>
       (if debug self then print h (ErrorReading path e) else ret tt) ;;;
       ret FileUsage_new).

Fixpoint scan_paths (h : host) (self : Scanner) (paths : list string)
    (results : gmap string FileUsage) : io (gmap string FileUsage) :=
  match paths with
  | [] => ret results
  | path :: l =>
      is_file <- call (path_is_file h path) ;;
      if is_file && should_scan self path
      then usage <- scan_file h self path ;;
           scan_paths h self l
             (if FileUsage_bool usage then <[path := usage]> results else results)
      else scan_paths h self l results
  end.

Definition scan_directory (h : host) (self : Scanner) (directory : string)
    : io (gmap string FileUsage) :=
  let results : gmap string FileUsage := ∅ in
  there <- call (path_exists h directory) ;;
  if negb there then ret results
  else paths <- call (path_rglob h directory) ;;
       scan_paths h self paths results.

Fixpoint scan_directories_from (h : host) (self : Scanner)
    (directories : list string) (results : gmap string FileUsage)
    : io (gmap string FileUsage) :=
  match directories with
  | [] => ret results
  | directory :: l =>
      dir_results <- scan_directory h self directory ;;
      scan_directories_from h self l (dir_results ∪ results)
  end.

Definition scan_directories (h : host) (self : Scanner)
    (directories : list string) : io (gmap string FileUsage) :=
  scan_directories_from h self directories ∅.

(** The host of a file system whose path queries and stream never fail. *)
Definition of_fs (fs : FS) : host :=
  {| present := fs_exists fs;
     path_exists := fun p => inr (fs_exists fs p);
     path_is_file := fun p => inr (fs_is_file fs p);
     path_rglob := fs_rglob fs;
     path_read_text := fs_read_text fs;
     stdout_write := fun _ => None |}.

(** Nothing can be read and the stream cannot encode a line. *)
Definition deaf : host :=
  {| present := fun _ => false;
     path_exists := fun _ => inr false;
     path_is_file := fun _ => inr false;
     path_rglob := fun _ => inr [];
     path_read_text := fun _ => inl FileNotFoundError;
     stdout_write := fun _ => Some UnicodeEncodeError |}.

(** No path exists, and [exists()] raises on a name that is too long. *)
Definition long_names : host :=
  {| present := fun _ => false;
     path_exists := fun p => if 255 <? String.length p then inl OSError else inr false;
     path_is_file := fun _ => inr false;
     path_rglob := fun _ => inr [];
     path_read_text := fun _ => inl FileNotFoundError;
     stdout_write := fun _ => None |}.

(** Every file reads as one attribute carrier; the stream cannot encode
    the line of a scanned file but can encode an error line. *)
Definition picky : host :=
  {| present := fun _ => true;
     path_exists := fun _ => inr true;
     path_is_file := fun _ => inr true;
     path_rglob := fun _ => inr [];
     path_read_text := fun _ => inr "_='toggle .menu'";
     stdout_write := fun d =>
       match d with
       | Scanned _ _ _ _ => Some UnicodeEncodeError
       | ErrorReading _ _ => None
       end |}.



End Host.

(** A root whose name has 300 characters. *)
Definition long_root : string :=
  str (repeat "a"%char 300).

(** * Properties *)

(** ** Merge *)

Lemma FileUsage_eq (u v : FileUsage) :
  commands u = commands v -> blocks u = blocks v ->
  positional u = positional v -> u = v.
Proof. destruct u, v; simpl; intros; subst; reflexivity. Qed.

(** C2: merge, as a function of two usage values, is commutative,
    associative and idempotent. *)
Theorem merge_laws (a b c : FileUsage) :
  merge a b = merge b a
  /\ merge (merge a b) c = merge a (merge b c)
  /\ merge a a = a.
Proof.
  repeat split; apply FileUsage_eq; simpl.
  - apply (comm_L (∪)).
  - apply (comm_L (∪)).
  - destruct (positional a), (positional b); reflexivity.
  - symmetry; apply (assoc_L (∪)).
  - symmetry; apply (assoc_L (∪)).
  - destruct (positional a), (positional b), (positional c); reflexivity.
  - apply (idemp_L (∪)).
  - apply (idemp_L (∪)).
  - destruct (positional a); reflexivity.
Qed.

Module ObjFacts.
Local Abbreviation merge_values := merge.
Import Obj.

Lemma set_update_lookup h s t h' l :
  set_update h s t = Some h' ->
  h' !! l = if decide (s = l)
            then x ← h !! s; y ← h !! t; Some (x ∪ y)
            else h !! l.
Proof.
  unfold set_update. intros H.
  destruct (h !! s) as [x|] eqn:Hs; simpl in H; [|discriminate].
  destruct (h !! t) as [y|] eqn:Ht; simpl in H; [|discriminate].
  injection H as <-. rewrite lookup_insert.
  destruct (decide (s = l)); simpl; reflexivity.
Qed.

(** In-place merge computes [merge] on the denoted values when the
    receiver's command set is an object of its own. *)
Lemma merge_view σ σ' self other a b :
  objs σ !! self = Some a -> objs σ !! other = Some b ->
  commands_at a ≠ blocks_at a -> commands_at a ≠ blocks_at b ->
  Obj.merge σ self other = Some σ' ->
  exists u v, view σ self = Some u /\ view σ other = Some v
              /\ view σ' self = Some (merge_values u v).
Proof.
  intros Ha Hb Hn1 Hn2 H. unfold Obj.merge in H.
  rewrite Ha, Hb in H. simpl in H.
  destruct (set_update (sets σ) (commands_at a) (commands_at b)) as [h1|] eqn:H1;
    simpl in H; [|discriminate].
  destruct (set_update h1 (blocks_at a) (blocks_at b)) as [h2|] eqn:H2;
    simpl in H; [|discriminate].
  injection H as <-.
  pose proof (set_update_lookup _ _ _ _ (commands_at a) H2) as L2c.
  pose proof (set_update_lookup _ _ _ _ (blocks_at a) H2) as L2b.
  pose proof (set_update_lookup _ _ _ _ (commands_at a) H1) as L1c.
  pose proof (set_update_lookup _ _ _ _ (blocks_at a) H1) as L1b.
  pose proof (set_update_lookup _ _ _ _ (blocks_at b) H1) as L1bb.
  rewrite decide_True in L2b by reflexivity.
  rewrite decide_True in L1c by reflexivity.
  rewrite decide_False in L2c by congruence.
  rewrite decide_False in L1b by congruence.
  rewrite decide_False in L1bb by congruence.
  rewrite L1b, L1bb in L2b. rewrite L1c in L2c.
  unfold set_update in H1.
  destruct (sets σ !! commands_at a) as [ca|] eqn:E1; simpl in *; [|discriminate].
  destruct (sets σ !! commands_at b) as [cb|] eqn:E2; simpl in *; [|discriminate].
  unfold set_update in H2. rewrite L1b, L1bb in H2.
  destruct (sets σ !! blocks_at a) as [ba|] eqn:E3; simpl in *; [|discriminate].
  destruct (sets σ !! blocks_at b) as [bb|] eqn:E4; simpl in *; [|discriminate].
  eexists _, _. unfold view. rewrite Ha, Hb. simpl.
  rewrite E1, E2, E3, E4. simpl. split; [reflexivity|]. split; [reflexivity|].
  destruct (positional_of b) eqn:Pb; simpl.
  - rewrite lookup_insert_eq. simpl. rewrite L2c, L2b. simpl. reflexivity.
  - rewrite Ha. simpl. rewrite L2c, L2b. simpl. reflexivity.
Qed.

Lemma set_update_same h s h' :
  set_update h s s = Some h' -> h' = h.
Proof.
  unfold set_update. destruct (h !! s) as [x|] eqn:E; simpl; [|discriminate].
  intros [= <-]. rewrite (idemp_L (∪)). apply insert_id, E.
Qed.

(** C10, as stated, fails when the two objects share sets crosswise:
    merging object 1 into object 0 of [crossed] adds "show" to the
    command set of object 1. *)
Lemma merge_changes_crossed_argument :
  ~ (forall σ', Obj.merge crossed 0 1 = Some σ' ->
                view σ' 1 = view crossed 1).
Proof.
  intros H.
  destruct (Obj.merge crossed 0 1) as [σ'|] eqn:E; [|vm_compute in E; discriminate].
  specialize (H σ' eq_refl).
  vm_compute in E. injection E as <-.
  vm_compute in H. discriminate H.
Qed.

(** C10 (amended): merge writes only to the receiver and its two sets,
    and the argument denotes the same value afterwards provided the
    two objects do not share sets crosswise. *)
Theorem merge_leaves_argument σ σ' self other a b :
  objs σ !! self = Some a -> objs σ !! other = Some b ->
  Obj.merge σ self other = Some σ' ->
  (forall l, l ≠ commands_at a -> l ≠ blocks_at a ->
             sets σ' !! l = sets σ !! l)
  /\ (forall l, l ≠ self -> objs σ' !! l = objs σ !! l)
  /\ (commands_at a ≠ blocks_at b -> blocks_at a ≠ commands_at b ->
      view σ' other = view σ other).
Proof.
  intros Ha Hb H. unfold Obj.merge in H.
  rewrite Ha, Hb in H. simpl in H.
  destruct (set_update (sets σ) (commands_at a) (commands_at b)) as [h1|] eqn:H1;
    simpl in H; [|discriminate].
  destruct (set_update h1 (blocks_at a) (blocks_at b)) as [h2|] eqn:H2;
    simpl in H; [|discriminate].
  injection H as <-. simpl.
  assert (Hobj : forall l, l ≠ self ->
    (if positional_of b
     then <[self := {| commands_at := commands_at a; blocks_at := blocks_at a;
                       positional_of := true |}]> (objs σ)
     else objs σ) !! l = objs σ !! l).
  { intros l Hl. destruct (positional_of b); [|reflexivity].
    apply lookup_insert_ne. congruence. }
  split; [|split].
  - intros l Hc Hbk.
    rewrite (set_update_lookup _ _ _ _ l H2), decide_False by congruence.
    rewrite (set_update_lookup _ _ _ _ l H1), decide_False by congruence.
    reflexivity.
  - exact Hobj.
  - intros Hn1 Hn2.
    assert (Hcb : h2 !! commands_at b = sets σ !! commands_at b).
    { rewrite (set_update_lookup _ _ _ _ _ H2), decide_False by congruence.
      destruct (decide (commands_at a = commands_at b)) as [e|n].
      - rewrite e in H1. apply set_update_same in H1. subst h1. reflexivity.
      - rewrite (set_update_lookup _ _ _ _ _ H1), decide_False by congruence.
        reflexivity. }
    assert (Hbb : h2 !! blocks_at b = sets σ !! blocks_at b).
    { destruct (decide (blocks_at a = blocks_at b)) as [e|n].
      - rewrite e in H2. apply set_update_same in H2. subst h2.
        rewrite (set_update_lookup _ _ _ _ _ H1), decide_False by congruence.
        reflexivity.
      - rewrite (set_update_lookup _ _ _ _ _ H2), decide_False by congruence.
        rewrite (set_update_lookup _ _ _ _ _ H1), decide_False by congruence.
        reflexivity. }
    unfold view. simpl.
    destruct (decide (other = self)) as [->|n].
    + assert (a = b) by congruence. subst b.
      destruct (positional_of a) eqn:Pa.
      * rewrite lookup_insert_eq, Ha. simpl. rewrite Hcb, Hbb, Pa. reflexivity.
      * rewrite Ha. simpl. rewrite Hcb, Hbb. reflexivity.
    + rewrite (Hobj other n), Hb. simpl. rewrite Hcb, Hbb. reflexivity.
Qed.

Lemma merge_leaves_argument_witness :
  exists σ', Obj.merge apart 0 1 = Some σ'
             /\ view σ' 1 = view apart 1.
Proof.
  destruct (Obj.merge apart 0 1) as [σ'|] eqn:E; [|vm_compute in E; discriminate].
  exists σ'. split; [reflexivity|].
  refine (proj2 (proj2 (merge_leaves_argument apart σ' 0 1
            {| commands_at := 10; blocks_at := 11; positional_of := false |}
            {| commands_at := 12; blocks_at := 13; positional_of := true |}
            _ _ E)) _ _).
  - reflexivity.
  - reflexivity.
  - simpl; lia.
  - simpl; lia.
Defined.

End ObjFacts.

(** ** Scanning content and files *)

Lemma fst_bind_Returned {A B} (m : io A) (f : A -> io B) (b : B) :
  fst (bind m f) = Returned b ->
  exists a, fst m = Returned a /\ fst (f a) = Returned b.
Proof.
  destruct m as [[a|e] out]; simpl.
  - destruct (f a) as [r out'] eqn:E. simpl. intros ->.
    exists a. rewrite E. split; reflexivity.
  - discriminate.
Qed.

(** What [scan_content] returns is the fold of the per-snippet
    classifications and nothing else. *)
Lemma scan_content_returns (self : Scanner) (content file_path : string) :
  fst (scan_content self content file_path)
  = Returned (fold_left (fun usage script => merge usage (analyze_script script))
                        (extract_hyperscript content) FileUsage_new).
Proof.
  unfold scan_content.
  destruct (debug self && FileUsage_bool _); reflexivity.
Qed.


(** ** Directory results *)

Lemma recorded_empty self fs : recorded self fs ∅.
Proof. intros path u H. rewrite lookup_empty in H. discriminate. Qed.

Lemma recorded_union self fs (m1 m2 : gmap string FileUsage) :
  recorded self fs m1 -> recorded self fs m2 -> recorded self fs (m1 ∪ m2).
Proof.
  intros H1 H2 path u H. apply lookup_union_Some_raw in H as [H|[_ H]]; eauto.
Qed.

Lemma scan_paths_recorded self fs paths :
  forall results m,
    recorded self fs results ->
    fst (scan_paths self fs paths results) = Returned m ->
    recorded self fs m.
Proof.
  induction paths as [|path l IH]; intros results m Hres H; simpl in H.
  - injection H as <-. exact Hres.
  - destruct (fs_is_file fs path && should_scan self path).
    + apply fst_bind_Returned in H as (usage & Hu & H).
      refine (IH _ _ _ H). intros p u Hp.
      destruct (FileUsage_bool usage) eqn:Hb; [|exact (Hres p u Hp)].
      destruct (decide (path = p)) as [->|n].
      * rewrite lookup_insert_eq in Hp. injection Hp as <-. split; assumption.
      * rewrite lookup_insert_ne in Hp by assumption. exact (Hres p u Hp).
    + exact (IH _ _ Hres H).
Qed.

Lemma scan_directory_recorded self fs directory m :
  fst (scan_directory self fs directory) = Returned m -> recorded self fs m.
Proof.
  unfold scan_directory. destruct (negb (fs_exists fs directory)).
  - simpl. intros [= <-]. apply recorded_empty.
  - intros H. apply fst_bind_Returned in H as (paths & _ & H).
    exact (scan_paths_recorded _ _ _ _ _ (recorded_empty _ _) H).
Qed.

Lemma scan_directories_from_recorded self fs directories :
  forall results m,
    recorded self fs results ->
    fst (scan_directories_from self fs directories results) = Returned m ->
    recorded self fs m.
Proof.
  induction directories as [|d l IH]; intros results m Hres H; simpl in H.
  - injection H as <-. exact Hres.
  - apply fst_bind_Returned in H as (dir_results & Hd & H).
    apply (IH _ _ (recorded_union _ _ _ _ (scan_directory_recorded _ _ _ _ Hd) Hres) H).
Qed.

Lemma FileUsage_bool_true (u : FileUsage) :
  FileUsage_bool u = true <->
  commands u ≠ ∅ \/ blocks u ≠ ∅ \/ positional u = true.
Proof.
  unfold FileUsage_bool, set_truthy.
  rewrite !orb_true_iff, !bool_decide_eq_true. tauto.
Qed.

(** C8: every usage stored in the mapping returned by [scan_directory] or
    [scan_directories] is non-empty (some command, some block, or the
    positional flag), and a path whose scan gives an empty usage has no
    entry. *)
Theorem stored_usage_nonempty (self : Scanner) (fs : FS)
    (directory : string) (directories : list string)
    (m : gmap string FileUsage) :
  fst (scan_directory self fs directory) = Returned m
  \/ fst (scan_directories self fs directories) = Returned m ->
  (forall path u, m !! path = Some u ->
     commands u ≠ ∅ \/ blocks u ≠ ∅ \/ positional u = true)
  /\ (forall path u, fst (scan_file self fs path) = Returned u ->
        commands u = ∅ -> blocks u = ∅ -> positional u = false ->
        m !! path = None).
Proof.
  intros H.
  assert (Hrec : recorded self fs m).
  { destruct H as [H|H].
    - exact (scan_directory_recorded _ _ _ _ H).
    - exact (scan_directories_from_recorded _ _ _ _ _ (recorded_empty _ _) H). }
  split.
  - intros path u Hp. apply FileUsage_bool_true. exact (proj2 (Hrec path u Hp)).
  - intros path u Hs Hc Hb Hpos.
    destruct (m !! path) as [v|] eqn:Hp; [|reflexivity].
    destruct (Hrec path v Hp) as [Hv Hne].
    rewrite Hs in Hv. injection Hv as <-.
    apply FileUsage_bool_true in Hne. rewrite Hc, Hb, Hpos in Hne.
    destruct Hne as [Hne|[Hne|Hne]]; [destruct Hne; reflexivity .. | discriminate].
Qed.

Lemma stored_usage_nonempty_witness :
  exists m, fst (scan_directory default_scanner site "templates") = Returned m
    /\ m !! "templates/b.html" = None
    /\ forall path u, m !! path = Some u ->
         commands u ≠ ∅ \/ blocks u ≠ ∅ \/ positional u = true.
Proof.
  destruct (fst (scan_directory default_scanner site "templates")) as [m|e] eqn:E;
    [|vm_compute in E; discriminate].
  exists m.
  destruct (stored_usage_nonempty default_scanner site "templates" [] m
              (or_introl E)) as [H1 H2].
  split; [reflexivity|]. split; [|exact H1].
  apply (H2 "templates/b.html" FileUsage_new); reflexivity.
Defined.

(** C7: the inline-attribute carrier and the paired block-tag carrier
    give the same classification: the command toggle, no block, no
    positional reference. *)
Theorem attribute_and_block_tag_agree (self : Scanner) (label : string) :
  fst (scan_content self ("_=" +:+ String dq "toggle .foo" +:+ String dq EmptyString) label)
  = Returned {| commands := {[ "toggle" ]}; blocks := ∅; positional := false |}
  /\ fst (scan_content self "{% hs %}on click toggle .foo{% endhs %}" label)
     = fst (scan_content self ("_=" +:+ String dq "toggle .foo" +:+ String dq EmptyString) label).
Proof.
  rewrite !scan_content_returns. split; vm_compute; reflexivity.
Qed.

(** ** Eligibility *)

Lemma starts_with_spec (p t : text) :
  starts_with p t = true <-> exists after, t = p ++ after.
Proof.
  revert t. induction p as [|a p IH]; intros t; simpl.
  - split; [intros _; exists t; reflexivity | reflexivity].
  - destruct t as [|b t].
    + split; [discriminate | intros [x Hx]; discriminate].
    + destruct (Ascii.eqb a b) eqn:E.
      * apply Ascii.eqb_eq in E. subst b. rewrite IH.
        split; intros [x Hx]; exists x; congruence.
      * apply Ascii.eqb_neq in E.
        split; [discriminate | intros [x Hx]; congruence].
Qed.

Lemma contains_spec (p t : text) :
  contains p t = true <-> occurs_in p t.
Proof.
  unfold occurs_in. induction t as [|c t IH]; simpl.
  - rewrite orb_false_r, starts_with_spec. split.
    + intros [x Hx]. exists [], x. exact Hx.
    + intros (pre & post & H). destruct pre; [exists post; exact H | discriminate].
  - rewrite orb_true_iff, starts_with_spec, IH. split.
    + intros [[x Hx]|(pre & post & H)].
      * exists [], x. exact Hx.
      * exists (c :: pre), post. simpl. congruence.
    + intros (pre & post & H). destruct pre as [|d pre]; simpl in H.
      * left. exists post. exact H.
      * right. exists pre, post. congruence.
Qed.

Lemma excluded_spec (patterns : list string) (t : text) :
  excluded patterns t = false <->
  forall pattern, pattern ∈ patterns -> ~ occurs_in (chars pattern) t.
Proof.
  induction patterns as [|p l IH]; simpl.
  - split; [intros _ x Hx; inversion Hx | reflexivity].
  - destruct (contains (chars p) t) eqn:E.
    + split; [discriminate|]. intros H. exfalso.
      apply (H p); [left | apply contains_spec, E].
    + rewrite IH. split.
      * intros H x Hx. apply elem_of_cons in Hx as [->|Hx]; [|exact (H x Hx)].
        intros Ho. apply contains_spec in Ho. congruence.
      * intros H x Hx. apply H. right. exact Hx.
Qed.

(** The equivalence between acceptance and "extension listed, in any
    case, and not excluded" fails for a configuration that lists an
    extension in upper case. *)
Lemma should_scan_upper_extension :
  ~ (should_scan upper_scanner "a.HTML" = true <->
     extension_included_ci upper_scanner "a.HTML"
     /\ not_excluded upper_scanner "a.HTML").
Proof.
  intros [_ H].
  assert (Hf : should_scan upper_scanner "a.HTML" = false) by (vm_compute; reflexivity).
  rewrite H in Hf; [discriminate|]. split.
  - exists ".HTML". split; [|reflexivity].
    unfold upper_scanner, Scanner_init. simpl.
    change (set_truthy {[".HTML"]}) with true. simpl. set_solver.
  - unfold not_excluded. apply excluded_spec. vm_compute. reflexivity.
Qed.

(** What [should_scan] computes: the lower-cased extension of the path
    is looked up in [include_extensions] as it stands, and no exclusion
    pattern may occur in the path string; with the default configuration
    a path containing node_modules is refused. *)
Theorem should_scan_spec (self : Scanner) (path : string) :
  (should_scan self path = true <->
     lower (str (path_suffix (chars path))) ∈ include_extensions self
     /\ not_excluded self path)
  /\ (occurs_in (chars "node_modules") (chars path) ->
      should_scan default_scanner path = false).
Proof.
  split.
  - unfold should_scan, not_excluded. rewrite <- excluded_spec.
    destruct (bool_decide _) eqn:Hd; simpl.
    + apply bool_decide_eq_true in Hd.
      destruct (excluded _ _); split; try tauto; try discriminate.
      intros [_ H]; discriminate.
    + apply bool_decide_eq_false in Hd. split; [discriminate | tauto].
  - intros Ho. unfold should_scan.
    destruct (negb _); [reflexivity|].
    assert (He : excluded (exclude_patterns default_scanner) (chars path) = true).
    { destruct (excluded _ _) eqn:E; [reflexivity|].
      exfalso. apply (proj1 (excluded_spec _ _) E "node_modules"); [|exact Ho].
      vm_compute. set_solver. }
    rewrite He. reflexivity.
Qed.

(** C4: the code at the failing input. With the single extension .HTML
    configured, the path a.HTML has its extension in the set, literally
    and so in any case, no exclusion pattern occurs in it, and
    [should_scan] refuses it: only the path's side of the comparison is
    lower-cased. *)
Theorem should_scan_refuses_listed_extension :
  should_scan upper_scanner "a.HTML" = false
  /\ str (path_suffix (chars "a.HTML")) ∈ include_extensions upper_scanner
  /\ extension_included_ci upper_scanner "a.HTML"
  /\ not_excluded upper_scanner "a.HTML".
Proof.
  assert (Hin : ".HTML" ∈ include_extensions upper_scanner).
  { unfold upper_scanner, Scanner_init. simpl.
    change (set_truthy {[".HTML"]}) with true. simpl.
    apply elem_of_singleton. reflexivity. }
  split; [vm_compute; reflexivity|]. split; [exact Hin|]. split.
  - exists ".HTML". split; [exact Hin|reflexivity].
  - unfold not_excluded. apply excluded_spec. vm_compute. reflexivity.
Qed.

Lemma should_scan_spec_witness :
  should_scan default_scanner "app/node_modules/pkg/index.html" = false
  /\ should_scan default_scanner "templates/Base.HTML" = true.
Proof.
  split.
  - apply (proj2 (should_scan_spec default_scanner "app/node_modules/pkg/index.html")).
    exists (chars "app/"), (chars "/pkg/index.html"). reflexivity.
  - apply (proj1 (should_scan_spec default_scanner "templates/Base.HTML")).
    split.
    + vm_compute. set_solver.
    + unfold not_excluded. apply excluded_spec. vm_compute. reflexivity.
Defined.

Lemma lower_lower (s : string) : lower (lower s) = lower s.
Proof.
  unfold lower, chars, str. rewrite list_ascii_of_string_of_list_ascii.
  f_equal. unfold lower_text. rewrite map_map. apply map_ext.
  intros c. destruct c as [[] [] [] [] [] [] [] []]; reflexivity.
Qed.

(** When every configured extension is written in lower case, as the
    defaults are, acceptance is: extension listed, in any case, and not
    excluded. *)
Lemma should_scan_lower_case_entries (self : Scanner) (path : string) :
  (forall e, e ∈ include_extensions self -> lower e = e) ->
  should_scan self path = true <->
  extension_included_ci self path /\ not_excluded self path.
Proof.
  intros Hl. rewrite (proj1 (should_scan_spec self path)).
  split; intros [H1 H2]; (split; [|exact H2]).
  - exists (lower (str (path_suffix (chars path)))). split; [exact H1|].
    apply lower_lower.
  - destruct H1 as (e & He & Heq). rewrite <- Heq, (Hl e He). exact He.
Qed.

(** ** The matcher and what it matches *)

Module ReFacts.

Lemma advance_app b w1 w2 : advance b (w1 ++ w2) = advance (advance b w1) w2.
Proof. revert b. induction w1 as [|c w1 IH]; intros b; simpl; auto. Qed.

Lemma advance_last b w :
  advance b w = match last w with Some c => Some c | None => b end.
Proof.
  revert b. induction w as [|c w IH]; intros b; [reflexivity|].
  simpl advance. rewrite IH. destruct w as [|d w]; [reflexivity|].
  rewrite last_cons_cons. destruct (last (d :: w)) eqn:E; [reflexivity|].
  apply last_None in E. discriminate.
Qed.

Lemma cursor_eta (k : cursor) b s :
  k = {| before := b; rest := s |} <-> before k = b /\ rest k = s.
Proof. destruct k; simpl. split; [intros [= -> ->]; auto | intros [-> ->]; auto]. Qed.

Lemma spans_lookup p s : forall b n k',
  spans p b s !! n = Some k' <->
  exists w, length w = n /\ s = w ++ rest k'
            /\ forallb p w = true /\ before k' = advance b w.
Proof.
  induction s as [|c s IH]; intros b n k'.
  - destruct n as [|n]; simpl.
    + split.
      * intros [= <-]. exists []. auto.
      * intros (w & Hl & Hs & _ & Hb). destruct w; [|discriminate].
        simpl in *. f_equal. symmetry. apply cursor_eta. auto.
    + split; [discriminate|].
      intros (w & Hl & Hs & _). destruct w; discriminate.
  - destruct n as [|n]; simpl.
    + split.
      * intros [= <-]. exists []. auto.
      * intros (w & Hl & Hs & _ & Hb). destruct w; [|discriminate].
        simpl in *. f_equal. symmetry. apply cursor_eta. auto.
    + destruct (p c) eqn:Hp.
      * rewrite IH. split.
        -- intros (w & Hl & Hs & Hf & Hb). exists (c :: w). simpl.
           rewrite Hp, Hl, Hs. auto.
        -- intros (w & Hl & Hs & Hf & Hb). destruct w as [|d w]; [discriminate|].
           simpl in *. injection Hs as <- Hs. injection Hl as Hl.
           rewrite Hp in Hf. exists w. auto.
      * split; [discriminate|].
        intros (w & Hl & Hs & Hf & Hb). destruct w as [|d w]; [discriminate|].
        simpl in *. injection Hs as <- Hs. rewrite Hp in Hf. discriminate.
Qed.

Lemma window_In lo hi (l : list cursor) k' :
  In k' (window lo hi l) <->
  exists n, lo <= n /\ within hi n /\ l !! n = Some k'.
Proof.
  rewrite <- list_elem_of_In, list_elem_of_lookup. unfold window, within.
  destruct hi as [h|].
  - split.
    + intros (i & Hi). apply lookup_take_Some in Hi as [Hi Hlt].
      rewrite lookup_drop in Hi. exists (lo + i). split; [lia|]. split; [lia|auto].
    + intros (n & Hlo & Hhi & Hn). exists (n - lo).
      apply lookup_take_Some. rewrite lookup_drop.
      replace (lo + (n - lo)) with n by lia. split; [auto|lia].
  - split.
    + intros (i & Hi). rewrite lookup_drop in Hi. exists (lo + i).
      split; [lia|]. split; auto.
    + intros (n & Hlo & _ & Hn). exists (n - lo). rewrite lookup_drop.
      replace (lo + (n - lo)) with n by lia. auto.
Qed.

(** The matcher reaches exactly the cursors that [matches] describes. *)
Lemma run_matches f r : forall k k',
  In k' (run f r k) <->
  exists w, rest k = w ++ rest k' /\ before k' = advance (before k) w
            /\ matches f r (before k) w (rest k').
Proof.
  induction r as [|cs|g lo hi cs| |r1 IH1 r2 IH2|r1 IH1 r2 IH2]; intros k k'; simpl.
  - split.
    + intros [<-|[]]. exists []. auto.
    + intros (w & Hr & Hb & ->). left. simpl in *.
      destruct k, k'; simpl in *; congruence.
  - destruct (rest k) as [|c s] eqn:Hs.
    + split; [intros []|].
      intros (w & Hr & _ & c & -> & _). discriminate.
    + destruct (mem f cs c) eqn:Hm.
      * split.
        -- intros [<-|[]]. exists [c]. simpl. eauto.
        -- intros (w & Hr & Hb & d & -> & _). simpl in *.
           injection Hr as <- Hr. left. symmetry. apply cursor_eta. auto.
      * split; [intros []|].
        intros (w & Hr & _ & d & -> & Hd). simpl in Hr.
        injection Hr as <- _. congruence.
  - assert (Hw : In k' (window lo hi (spans (mem f cs) (before k) (rest k))) <->
      exists w, rest k = w ++ rest k' /\ before k' = advance (before k) w
        /\ forallb (mem f cs) w = true /\ lo <= length w /\ within hi (length w)).
    { rewrite window_In. split.
      - intros (n & Hlo & Hhi & Hn). apply spans_lookup in Hn as (w & <- & ? & ? & ?).
        exists w. auto.
      - intros (w & ? & ? & ? & ? & ?). exists (length w).
        split; [auto|]. split; [auto|]. apply spans_lookup. exists w. auto. }
    destruct g; [rewrite <- in_rev|]; exact Hw.
  - destruct (at_boundary k) eqn:Hb.
    + split.
      * intros [<-|[]]. exists []. destruct k; simpl in *. auto.
      * intros (w & Hr & Hbf & -> & _). left. simpl in *.
        destruct k, k'; simpl in *; congruence.
    + split; [intros []|].
      intros (w & Hr & Hbf & -> & Hbd). simpl in *.
      destruct k; simpl in *. rewrite <- Hr in Hbd.
      unfold at_boundary in *. simpl in *. congruence.
  - rewrite in_flat_map. split.
    + intros (m & Hm & Hk). apply IH1 in Hm as (w1 & Hr1 & Hb1 & M1).
      apply IH2 in Hk as (w2 & Hr2 & Hb2 & M2).
      exists (w1 ++ w2). rewrite <- app_assoc, <- Hr2, advance_app, <- Hb1.
      split; [auto|]. split; [auto|]. exists w1, w2.
      rewrite <- Hr2, <- Hb1. auto.
    + intros (w & Hr & Hb & w1 & w2 & -> & M1 & M2).
      exists {| before := advance (before k) w1; rest := w2 ++ rest k' |}.
      split.
      * apply IH1. exists w1. simpl. rewrite <- app_assoc in Hr. auto.
      * apply IH2. exists w2. simpl. rewrite advance_app in Hb. auto.
  - rewrite in_app_iff, IH1, IH2. split.
    + intros [(w & ? & ? & ?)|(w & ? & ? & ?)]; exists w; auto.
    + intros (w & ? & ? & [?|?]); [left|right]; exists w; auto.
Qed.

Lemma whole_run p k k3 :
  In k3 (run (fl p) (whole p) k) <->
  exists k1 k2, In k1 (run (fl p) (pre p) k)
                /\ In k2 (run (fl p) (grp p) k1)
                /\ In k3 (run (fl p) (post p) k2).
Proof.
  unfold whole. simpl. rewrite in_flat_map. split.
  - intros (k1 & H1 & H). apply in_flat_map in H as (k2 & H2 & H3). eauto.
  - intros (k1 & k2 & H1 & H2 & H3). exists k1. split; [auto|].
    apply in_flat_map. eauto.
Qed.

Lemma attempts_some p k :
  (exists m, In m (attempts p k)) <-> exists k3, In k3 (run (fl p) (whole p) k).
Proof.
  unfold attempts. split.
  - intros (m & H). apply in_flat_map in H as (k1 & H1 & H).
    apply in_flat_map in H as (k2 & H2 & H).
    apply in_map_iff in H as (k3 & _ & H3).
    exists k3. apply whole_run. eauto.
  - intros (k3 & H). apply whole_run in H as (k1 & k2 & H1 & H2 & H3).
    eexists. apply in_flat_map. exists k1. split; [auto|].
    apply in_flat_map. exists k2. split; [auto|].
    apply in_map_iff. exists k3. split; [reflexivity|auto].
Qed.

Lemma head_some {A} (l : list A) :
  is_some (head l) = true <-> exists x, In x l.
Proof.
  destruct l as [|a l]; simpl.
  - split; [discriminate | intros [x []]].
  - split; [intros _; exists a; auto | reflexivity].
Qed.

Lemma match_at_some p k :
  is_some (match_at false p k) = true <->
  exists w nxt, rest k = w ++ nxt /\ matches (fl p) (whole p) (before k) w nxt.
Proof.
  unfold match_at. rewrite head_some, attempts_some. split.
  - intros (k3 & H). apply run_matches in H as (w & Hr & _ & M). eauto.
  - intros (w & nxt & Hr & M).
    exists {| before := advance (before k) w; rest := nxt |}.
    apply run_matches. exists w. auto.
Qed.

Local Arguments match_at : simpl never.
Local Arguments whole : simpl never.
Local Arguments matches : simpl never.

Lemma search_from_some p s : forall b,
  is_some (search_from p b s) = true <->
  exists skipped w nxt, s = skipped ++ w ++ nxt
    /\ matches (fl p) (whole p) (advance b skipped) w nxt.
Proof.
  induction s as [|c s IH]; intros b; simpl.
  - destruct (match_at false p {| before := b; rest := [] |}) as [m|] eqn:E.
    + split; [intros _|reflexivity].
      assert (Hs : is_some (match_at false p {| before := b; rest := [] |}) = true)
        by (rewrite E; reflexivity).
      apply match_at_some in Hs as (w & nxt & Hr & M). exists [], w, nxt. auto.
    + split; [discriminate|]. intros (sk & w & nxt & Hs & M).
      destruct sk; [|discriminate]. simpl in *.
      assert (Hn : is_some (match_at false p {| before := b; rest := [] |}) = true)
        by (apply match_at_some; eauto).
      rewrite E in Hn. discriminate.
  - destruct (match_at false p {| before := b; rest := c :: s |}) as [m|] eqn:E.
    + split; [intros _|reflexivity].
      assert (Hs : is_some (match_at false p {| before := b; rest := c :: s |}) = true)
        by (rewrite E; reflexivity).
      apply match_at_some in Hs as (w & nxt & Hr & M). exists [], w, nxt. auto.
    + rewrite IH. split.
      * intros (sk & w & nxt & -> & M). exists (c :: sk), w, nxt. auto.
      * intros (sk & w & nxt & Hs & M). destruct sk as [|d sk]; simpl in *.
        -- assert (Hn : is_some (match_at false p {| before := b; rest := c :: s |}) = true)
             by (apply match_at_some; eauto).
           rewrite E in Hn. discriminate.
        -- injection Hs as <- ->. eauto.
Qed.

(** [search] succeeds exactly when some stretch of the subject, in its
    context, is matched by the whole pattern. *)
Lemma search_some p s :
  is_some (search p s) = true <->
  exists skipped w nxt, s = skipped ++ w ++ nxt
    /\ matches (fl p) (whole p) (last skipped) w nxt.
Proof.
  unfold search. rewrite search_from_some.
  assert (Ha : forall sk, advance None sk = last sk).
  { intros sk. rewrite advance_last. destruct (last sk); reflexivity. }
  split; intros (sk & w & nxt & Hs & M); exists sk, w, nxt;
    [rewrite <- Ha | rewrite Ha]; auto.
Qed.

Local Arguments matches : simpl nomatch.

(** Literals under IGNORECASE. *)
Lemma matches_lit_chars f (l : text) b w nxt :
  ignorecase f = true ->
  matches f (fold_right (fun c r => Cat (One (CLit c)) r) Eps l) b w nxt
  <-> lower_text w = lower_text l.
Proof.
  intros Hic. revert b w. induction l as [|a l IH]; intros b w; simpl.
  - split; [intros ->; reflexivity|]. destruct w; [reflexivity|discriminate].
  - rewrite Hic. split.
    + intros (w1 & w2 & -> & (c & -> & Hc) & M). apply IH in M.
      apply Ascii.eqb_eq in Hc. unfold lower_text in *. simpl. congruence.
    + intros H. destruct w as [|c w]; [discriminate|]. simpl in H.
      injection H as Hc H. exists [c], w. split; [reflexivity|]. split.
      * exists c. split; [reflexivity|]. apply Ascii.eqb_eq. exact Hc.
      * apply IH. exact H.
Qed.

Lemma matches_lit f s b w nxt :
  ignorecase f = true ->
  matches f (lit s) b w nxt <-> same_ci w s.
Proof. intros H. unfold lit, same_ci. apply matches_lit_chars, H. Qed.

(** Character facts, checked on the 256 code points. *)
Ltac by_cases c := destruct c as [[] [] [] [] [] [] [] []]; reflexivity.

Lemma is_word_lower c : Chr.is_word (Chr.lower c) = Chr.is_word c.
Proof. by_cases c. Qed.

Lemma lower_colon c : Ascii.eqb (Chr.lower c) (Chr.lower ":") = Ascii.eqb c ":".
Proof. by_cases c. Qed.
Lemma lower_dollar c : Ascii.eqb (Chr.lower c) (Chr.lower "$") = Ascii.eqb c "$".
Proof. by_cases c. Qed.
Lemma lower_dot c : Ascii.eqb (Chr.lower c) (Chr.lower ".") = Ascii.eqb c ".".
Proof. by_cases c. Qed.

Lemma forallb_word_lower w :
  forallb Chr.is_word (lower_text w) = forallb Chr.is_word w.
Proof.
  induction w as [|c w IH]; simpl; [reflexivity|].
  rewrite is_word_lower, IH. reflexivity.
Qed.

Lemma same_ci_word w kw :
  same_ci w kw -> forallb Chr.is_word (chars kw) = true ->
  forallb Chr.is_word w = true.
Proof.
  unfold same_ci. intros H Hk.
  rewrite <- forallb_word_lower, H, forallb_word_lower. exact Hk.
Qed.

Lemma same_ci_length w kw : same_ci w kw -> length w = length (chars kw).
Proof.
  unfold same_ci, lower_text. intros H.
  apply (f_equal (@length ascii)) in H. rewrite !length_map in H. exact H.
Qed.

(** A non-empty run of word characters, in its context, stands between
    two word boundaries exactly when it is a whole word. *)
Lemma word_run_start skipped w tail :
  w <> [] -> forallb Chr.is_word w = true ->
  at_boundary {| before := last skipped; rest := w ++ tail |}
  = negb (ends_word skipped).
Proof.
  intros Hne Hw. unfold at_boundary, word_before, word_after, ends_word. simpl.
  destruct w as [|c w]; [congruence|]. simpl in *.
  apply andb_true_iff in Hw as [-> _].
  destruct (last skipped) as [d|]; [destruct (Chr.is_word d)|]; reflexivity.
Qed.

Lemma word_run_end b w nxt :
  w <> [] -> forallb Chr.is_word w = true ->
  at_boundary {| before := advance b w; rest := nxt |}
  = negb (starts_word nxt).
Proof.
  intros Hne Hw. unfold at_boundary, word_before, word_after, starts_word. simpl.
  rewrite advance_last.
  destruct (last w) as [c|] eqn:El; [|apply last_None in El; congruence].
  apply last_Some in El as (w' & ->).
  rewrite forallb_app in Hw. apply andb_true_iff in Hw as [_ Hc].
  simpl in Hc. rewrite andb_true_r in Hc. rewrite Hc.
  destruct nxt as [|d nxt]; [|destruct (Chr.is_word d)]; reflexivity.
Qed.

End ReFacts.

(** ** Block detection *)

Module BlockFacts.
Import ReFacts.

Local Arguments lit : simpl never.
Local Arguments at_boundary : simpl never.

Lemma blocks_fold (script : text) (l : list (string * pattern)) :
  forall (acc : gset string) (x : string),
  x ∈ fold_left (fun acc '(block_name, pattern) =>
                   if is_some (search pattern script)
                   then if String.eqb block_name "unless"
                        then acc ∪ {[ "if" ]}
                        else acc ∪ {[ block_name ]}
                   else acc) l acc
  <-> x ∈ acc \/ exists name pat, In (name, pat) l
                   /\ is_some (search pat script) = true
                   /\ x = canonical_block name.
Proof.
  induction l as [|[name pat] l IH]; intros acc x; simpl.
  - split; [auto | intros [H|(n & q & [] & _)]; exact H].
  - rewrite IH. unfold canonical_block. split.
    + intros [H|(n & q & Hin & Hs & Hx)].
      * destruct (is_some (search pat script)) eqn:Hs; [|auto].
        destruct (String.eqb name "unless") eqn:Hn;
          apply elem_of_union in H as [H|H]; auto;
          apply elem_of_singleton in H; right; exists name, pat;
          rewrite Hn; auto.
      * right. exists n, q. auto.
    + intros [H|(n & q & [[= <- <-]|Hin] & Hs & Hx)].
      * left. destruct (is_some (search pat script)); [|exact H].
        destruct (String.eqb name "unless"); apply elem_of_union; auto.
      * left. rewrite Hs. subst x.
        destruct (String.eqb name "unless"); apply elem_of_union; right;
          apply elem_of_singleton; reflexivity.
      * right. exists n, q. auto.
Qed.

Lemma detect_blocks_spec (script : text) (x : string) :
  x ∈ detect_blocks script <->
  exists name pat, In (name, pat) BLOCK_PATTERNS
    /\ is_some (search pat script) = true /\ x = canonical_block name.
Proof.
  unfold detect_blocks. rewrite blocks_fold. split; [|auto].
  intros [H|H]; [|exact H]. set_solver.
Qed.

(** A bare keyword pattern matches the keyword, in any case, between
    two word boundaries. *)
Lemma bare_keyword_matches kw b w nxt :
  matches IGNORECASE (whole (bare_keyword kw)) b w nxt <->
  same_ci w kw
  /\ at_boundary {| before := b; rest := w ++ nxt |} = true
  /\ at_boundary {| before := advance b w; rest := nxt |} = true.
Proof.
  unfold whole, bare_keyword. simpl. split.
  - intros (w1 & w2 & -> & (w3 & w4 & -> & (-> & B1) & w5 & w6 & -> & L
             & w7 & w8 & -> & (-> & B2) & ->) & w9 & w10 & -> & -> & ->).
    apply matches_lit in L; [|reflexivity].
    simpl in *. rewrite !app_nil_r in *. auto.
  - intros (L & B1 & B2).
    exists w, []. rewrite !app_nil_r. split; [reflexivity|]. split.
    + exists [], w. split; [reflexivity|]. simpl. split; [auto|].
      exists w, []. rewrite !app_nil_r. split; [reflexivity|]. split.
      * apply matches_lit; [reflexivity|exact L].
      * exists [], []. simpl. auto.
    + exists [], []. auto.
Qed.

Lemma search_bare_keyword kw s :
  chars kw <> [] -> forallb Chr.is_word (chars kw) = true ->
  is_some (search (bare_keyword kw) s) = true <-> contains_word kw s.
Proof.
  intros Hne Hw. rewrite search_some. unfold contains_word.
  assert (Hrun : forall w, same_ci w kw -> w <> [] /\ forallb Chr.is_word w = true).
  { intros w L. split; [|exact (same_ci_word _ _ L Hw)].
    intros ->. apply same_ci_length in L. destruct (chars kw); [congruence|discriminate]. }
  split.
  - intros (sk & w & nxt & -> & M).
    apply bare_keyword_matches in M as (L & B1 & B2).
    destruct (Hrun w L) as [Hn Hws].
    rewrite word_run_start in B1 by assumption.
    rewrite word_run_end in B2 by assumption.
    exists sk, w, nxt. repeat split; auto.
    + destruct (ends_word sk); [discriminate|reflexivity].
    + destruct (starts_word nxt); [discriminate|reflexivity].
  - intros (sk & w & nxt & -> & L & E1 & E2).
    destruct (Hrun w L) as [Hn Hws].
    exists sk, w, nxt. split; [reflexivity|].
    apply bare_keyword_matches. split; [exact L|].
    rewrite word_run_start, word_run_end by assumption.
    rewrite E1, E2. auto.
Qed.

Lemma forallb_eq (p q : ascii -> bool) (w : text) :
  (forall c, p c = q c) -> forallb p w = forallb q w.
Proof. intros H. induction w as [|c w IH]; simpl; [|rewrite H, IH]; reflexivity. Qed.

Lemma matches_plus f cs b w nxt :
  matches f (plus cs) b w nxt <-> run_of (mem f cs) w.
Proof.
  unfold plus, run_of. simpl. split.
  - intros (F & L & _). split; [|exact F]. intros ->. simpl in L. lia.
  - intros (N & F). split; [exact F|]. split; [|exact I].
    destruct w; [congruence|simpl; lia].
Qed.

Lemma matches_one_ic l b w nxt :
  (forall c, Ascii.eqb (Chr.lower c) (Chr.lower l) = Ascii.eqb c l) ->
  matches IGNORECASE (One (CLit l)) b w nxt <-> w = [l].
Proof.
  intros Hl. simpl. split.
  - intros (c & -> & Hc). rewrite Hl in Hc. apply Ascii.eqb_eq in Hc. congruence.
  - intros ->. exists l. split; [reflexivity|]. rewrite Hl. apply Ascii.eqb_refl.
Qed.

Lemma repeat_count_matches b w nxt :
  matches IGNORECASE repeat_count b w nxt <-> repeat_count_text w.
Proof.
  unfold repeat_count, repeat_count_text, alts.
  change (matches IGNORECASE (Alt ?a ?r) b w nxt)
    with (matches IGNORECASE a b w nxt \/ matches IGNORECASE r b w nxt).
  change (matches IGNORECASE (Alt ?a ?r) b w nxt)
    with (matches IGNORECASE a b w nxt \/ matches IGNORECASE r b w nxt).
  change (matches IGNORECASE (Alt ?a ?r) b w nxt)
    with (matches IGNORECASE a b w nxt \/ matches IGNORECASE r b w nxt).
  assert (Hp : forall pfx,
    (forall c, Ascii.eqb (Chr.lower c) (Chr.lower pfx) = Ascii.eqb c pfx) ->
    matches IGNORECASE (Cat (One (CLit pfx)) (plus CWord)) b w nxt
    <-> exists id, w = pfx :: id /\ identifier id).
  { intros pfx Hpfx. split.
    - intros (w1 & w2 & -> & M1 & M2).
      apply (matches_one_ic pfx) in M1; [|exact Hpfx]. subst w1.
      apply matches_plus in M2. exists w2. auto.
    - intros (id & -> & Hid). exists [pfx], id. split; [reflexivity|]. split.
      + apply matches_one_ic; auto.
      + apply matches_plus. exact Hid. }
  rewrite (Hp ":"%char lower_colon), (Hp "$"%char lower_dollar).
  rewrite !matches_plus.
  unfold decimal_integer, word_dot_run, run_of.
  rewrite (forallb_eq (mem IGNORECASE (COr CWord (CLit ".")))
             (fun c => Chr.is_word c || Ascii.eqb c ".") w)
    by (intros c; simpl; rewrite lower_dot; reflexivity).
  reflexivity.
Qed.

Lemma repeat_pre_matches b w nxt :
  matches IGNORECASE (pre REPEAT_PATTERN) b w nxt <->
  exists kw ws1, w = kw ++ ws1 /\ same_ci kw "repeat" /\ blanks ws1
    /\ at_boundary {| before := b; rest := w ++ nxt |} = true.
Proof.
  unfold REPEAT_PATTERN, pre, ws_plus, seq, fold_right. split.
  - intros (w1 & w2 & -> & (-> & B) & w3 & w4 & -> & L & w5 & w6 & -> & P & ->).
    apply matches_lit in L; [|reflexivity]. apply matches_plus in P.
    exists w3, w5. simpl in *. rewrite !app_nil_r in *.
    rewrite <- !app_assoc in B. rewrite <- !app_assoc. auto.
  - intros (kw & ws1 & -> & L & P & B).
    exists [], (kw ++ ws1). split; [reflexivity|]. split; [split; [reflexivity|exact B]|].
    exists kw, ws1. split; [reflexivity|]. split.
    + apply matches_lit; [reflexivity|exact L].
    + exists ws1, []. rewrite app_nil_r. split; [reflexivity|]. split.
      * apply matches_plus. exact P.
      * reflexivity.
Qed.

Lemma time_or_times (t o : text) :
  same_ci t "time" ->
  forallb (mem IGNORECASE (CLit "s")) o = true -> length o <= 1 ->
  same_ci (t ++ o) "time" \/ same_ci (t ++ o) "times".
Proof.
  unfold same_ci, lower_text. intros Ht Ho Hl.
  destruct o as [|c [|d o]]; [| |simpl in Hl; lia].
  - left. rewrite app_nil_r. exact Ht.
  - right. simpl in Ho. rewrite andb_true_r in Ho. apply Ascii.eqb_eq in Ho.
    rewrite map_app, Ht. simpl. rewrite Ho. reflexivity.
Qed.

Lemma time_or_times_split (unit : text) :
  same_ci unit "time" \/ same_ci unit "times" ->
  exists t o, unit = t ++ o /\ same_ci t "time"
    /\ forallb (mem IGNORECASE (CLit "s")) o = true /\ length o <= 1.
Proof.
  unfold same_ci, lower_text. intros [H|H].
  - exists unit, []. rewrite app_nil_r. simpl. auto.
  - destruct unit as [|c1 [|c2 [|c3 [|c4 [|c5 [|c6 u]]]]]]; try discriminate.
    simpl in H. injection H as H1 H2 H3 H4 H5.
    exists [c1; c2; c3; c4], [c5]. simpl. rewrite H1, H2, H3, H4, H5.
    repeat split; auto.
Qed.

Lemma repeat_post_matches b w nxt :
  matches IGNORECASE (post REPEAT_PATTERN) b w nxt <->
  exists ws2 unit, w = ws2 ++ unit /\ blanks ws2
    /\ (same_ci unit "time" \/ same_ci unit "times")
    /\ at_boundary {| before := advance b w; rest := nxt |} = true.
Proof.
  unfold REPEAT_PATTERN, post, ws_plus, opt, seq, fold_right. split.
  - intros (ws2 & w2 & -> & P & t & w3 & -> & L & o & w4 & -> & (F & _ & Hl)
             & w5 & w6 & -> & (-> & B) & ->).
    apply matches_plus in P. apply matches_lit in L; [|reflexivity].
    simpl in Hl, B. rewrite !app_nil_r in *.
    exists ws2, (t ++ o). split; [reflexivity|]. split; [exact P|]. split.
    + apply time_or_times; assumption.
    + rewrite !advance_app. exact B.
  - intros (ws2 & unit & -> & P & U & B).
    apply time_or_times_split in U as (t & o & -> & L & F & Hl).
    exists ws2, (t ++ o). split; [reflexivity|]. split; [apply matches_plus, P|].
    exists t, o. split; [reflexivity|]. split; [apply matches_lit; [reflexivity|exact L]|].
    exists o, []. rewrite app_nil_r. split; [reflexivity|]. split.
    + simpl. split; [exact F|]. split; [lia|exact Hl].
    + exists [], []. split; [reflexivity|]. split; [|reflexivity].
      split; [reflexivity|]. simpl. rewrite !advance_app in B. exact B.
Qed.

Lemma unit_word (unit : text) :
  same_ci unit "time" \/ same_ci unit "times" ->
  unit <> [] /\ forallb Chr.is_word unit = true.
Proof.
  intros [H|H]; (split;
    [intros ->; apply same_ci_length in H; discriminate
    |exact (same_ci_word _ _ H eq_refl)]).
Qed.

(** [search] finds the repeat pattern exactly in the scripts that
    contain the repeat phrase. *)
Lemma search_repeat s :
  is_some (search REPEAT_PATTERN s) = true <-> repeat_phrase s.
Proof.
  rewrite search_some. unfold repeat_phrase, whole.
  change (fl REPEAT_PATTERN) with IGNORECASE.
  change (grp REPEAT_PATTERN) with repeat_count. split.
  - intros (sk & w & nxt & -> & w1 & w2 & -> & M1 & w3 & w4 & -> & M2 & M3).
    apply repeat_pre_matches in M1 as (kw & ws1 & -> & L & P1 & B1).
    apply repeat_count_matches in M2.
    apply repeat_post_matches in M3 as (ws2 & unit & -> & P2 & U & B2).
    destruct (unit_word _ U) as [Un Uw].
    assert (Kn : kw <> [] /\ forallb Chr.is_word kw = true).
    { split; [intros ->; apply same_ci_length in L; discriminate
             |exact (same_ci_word _ _ L eq_refl)]. }
    destruct Kn as [Kn Kw].
    rewrite <- !app_assoc in B1. rewrite word_run_start in B1 by assumption.
    rewrite advance_app in B2. rewrite word_run_end in B2 by assumption.
    exists sk, kw, ws1, w3, ws2, unit, nxt.
    rewrite <- !app_assoc. repeat split; auto.
    + apply P1.
    + apply P1.
    + apply P2.
    + apply P2.
    + destruct (ends_word sk); [discriminate|reflexivity].
    + destruct (starts_word nxt); [discriminate|reflexivity].
  - intros (sk & kw & ws1 & count & ws2 & unit & nxt & -> & L & P1 & C & P2 & U & E1 & E2).
    destruct (unit_word _ U) as [Un Uw].
    assert (Kn : kw <> [] /\ forallb Chr.is_word kw = true).
    { split; [intros ->; apply same_ci_length in L; discriminate
             |exact (same_ci_word _ _ L eq_refl)]. }
    destruct Kn as [Kn Kw].
    exists sk, ((kw ++ ws1) ++ count ++ ws2 ++ unit), nxt.
    split; [rewrite <- !app_assoc; reflexivity|].
    exists (kw ++ ws1), (count ++ ws2 ++ unit). split; [reflexivity|]. split.
    + apply repeat_pre_matches. exists kw, ws1. repeat split; auto; try apply P1.
      rewrite <- !app_assoc. rewrite word_run_start by assumption.
      rewrite E1. reflexivity.
    + exists count, (ws2 ++ unit). split; [reflexivity|]. split.
      * apply repeat_count_matches. exact C.
      * apply repeat_post_matches. exists ws2, unit. repeat split; auto; try apply P2.
        rewrite advance_app. rewrite word_run_end by assumption.
        rewrite E2. reflexivity.
Qed.

End BlockFacts.

(** C1: a snippet that contains the keyword unless, in any case and as a
    whole word, gets the block kind if; no snippet gets a block kind
    unless; the snippet [unless x is true], alone or inside an attribute
    carrier, gets exactly the block set {if}. *)
Theorem unless_counts_as_if (script : string) :
  (contains_word "unless" (chars script) ->
     "if" ∈ blocks (analyze_script script))
  /\ ("unless" ∉ blocks (analyze_script script))
  /\ blocks (analyze_script "unless x is true") = {[ "if" ]}
  /\ (forall self label,
        fst (scan_content self
               ("<div _=" +:+ String dq "unless x is true" +:+ String dq ">") label)
        = Returned {| commands := ∅; blocks := {[ "if" ]}; positional := false |}).
Proof.
  split; [|split; [|split]].
  - intros H. simpl. apply BlockFacts.detect_blocks_spec.
    exists "unless", (bare_keyword "unless"). split; [|split].
    + simpl. auto.
    + apply BlockFacts.search_bare_keyword; [discriminate|reflexivity|exact H].
    + reflexivity.
  - simpl. rewrite BlockFacts.detect_blocks_spec.
    intros (name & pat & Hin & _ & Hx). simpl in Hin.
    repeat (destruct Hin as [[= <- <-]|Hin]; [vm_compute in Hx; discriminate|]).
    destruct Hin.
  - vm_compute. reflexivity.
  - intros self label. rewrite scan_content_returns. vm_compute. reflexivity.
Qed.

Lemma unless_counts_as_if_witness :
  "if" ∈ blocks (analyze_script "hide me UNLESS done").
Proof.
  apply (proj1 (unless_counts_as_if "hide me UNLESS done")).
  exists (chars "hide me "), (chars "UNLESS"), (chars " done").
  repeat split; reflexivity.
Defined.

Lemma dotted_from_run (t : text) : forall expecting,
  dotted_from expecting t = true ->
  forallb (fun c => Chr.is_word c || Ascii.eqb c ".") t = true.
Proof.
  induction t as [|c t IH]; intros e H; [reflexivity|]. simpl in *.
  destruct (Chr.is_word c); simpl.
  - exact (IH _ H).
  - destruct (Ascii.eqb c "."); [|discriminate]. simpl.
    destruct e; [discriminate|]. exact (IH _ H).
Qed.

Lemma claimed_count_accepted (w : text) : claimed_count w -> repeat_count_text w.
Proof.
  unfold claimed_count, repeat_count_text.
  intros [H|[H|[H|H]]]; auto. right. right. right.
  unfold dotted_path_expression in H. split.
  - intros ->. discriminate H.
  - exact (dotted_from_run w true H).
Qed.

Lemma claimed_phrase_accepted (s : text) :
  claimed_repeat_phrase s -> repeat_phrase s.
Proof.
  intros (b & kw & ws1 & c & ws2 & u & a & Hs & L & P1 & C & P2 & U & E1 & E2).
  exists b, kw, ws1, c, ws2, u, a. repeat split; auto; try apply P1; try apply P2.
  apply claimed_count_accepted, C.
Qed.

Lemma splits_In (a : text) : forall s b, s = a ++ b -> In (a, b) (splits s).
Proof.
  induction a as [|c a IH]; intros s b ->; simpl.
  - destruct b; left; reflexivity.
  - right. apply in_map_iff. exists (a, b). split; [reflexivity|]. apply IH. reflexivity.
Qed.

Lemma exists_split_intro (s a b : text) (P : text -> text -> bool) :
  s = a ++ b -> P a b = true -> exists_split s P = true.
Proof.
  intros Hs HP. unfold exists_split. apply existsb_exists.
  exists (a, b). split; [apply splits_In, Hs|exact HP].
Qed.

Lemma run_of_b_intro (p : ascii -> bool) (w : text) :
  run_of p w -> run_of_b p w = true.
Proof. intros [Hn Hf]. destruct w; [congruence|exact Hf]. Qed.

Lemma same_ci_b_intro (w : text) (kw : string) : same_ci w kw -> same_ci_b w kw = true.
Proof. intros H. apply bool_decide_eq_true. exact H. Qed.

Lemma claimed_count_b_intro (w : text) : claimed_count w -> claimed_count_b w = true.
Proof.
  unfold claimed_count, claimed_count_b.
  intros [H|[(id & -> & H)|[(id & -> & H)|H]]].
  - rewrite (run_of_b_intro _ _ H). reflexivity.
  - rewrite (run_of_b_intro _ _ H). simpl. rewrite ?orb_true_r. reflexivity.
  - rewrite (run_of_b_intro _ _ H). simpl. rewrite ?orb_true_r. reflexivity.
  - rewrite H. apply orb_true_r.
Qed.

(** The checker finds every occurrence of the phrase. *)
Lemma claimed_repeat_phrase_check (s : text) :
  claimed_repeat_phrase s -> claimed_repeat_phrase_b s = true.
Proof.
  intros (b & kw & ws1 & c & ws2 & u & a & Hs & L & P1 & C & P2 & U & E1 & E2).
  unfold claimed_repeat_phrase_b.
  apply (exists_split_intro _ b _ _ Hs). rewrite E1. simpl.
  apply (exists_split_intro _ kw _ _ eq_refl).
  rewrite (same_ci_b_intro _ _ L). simpl.
  apply (exists_split_intro _ ws1 _ _ eq_refl).
  rewrite (run_of_b_intro _ _ P1). simpl.
  apply (exists_split_intro _ c _ _ eq_refl).
  rewrite (claimed_count_b_intro _ C). simpl.
  apply (exists_split_intro _ ws2 _ _ eq_refl).
  rewrite (run_of_b_intro _ _ P2). simpl.
  apply (exists_split_intro _ u a _ eq_refl).
  rewrite E2. simpl. rewrite andb_true_r.
  destruct U as [U|U]; rewrite (same_ci_b_intro _ _ U); [reflexivity|apply orb_true_r].
Qed.

(** C3, as stated, fails on [repeat ... times]: the block kind repeat is
    reported, yet three dots are no decimal integer, no prefixed
    identifier and no dotted path expression. *)
Lemma repeat_dots_not_claimed :
  ~ ("repeat" ∈ blocks (analyze_script "repeat ... times")
     <-> claimed_repeat_phrase (chars "repeat ... times")).
Proof.
  intros [H _].
  assert (Hb : blocks (analyze_script "repeat ... times") = {[ "repeat" ]})
    by (vm_compute; reflexivity).
  rewrite Hb in H.
  assert (Hc : claimed_repeat_phrase (chars "repeat ... times"))
    by (apply H, elem_of_singleton; reflexivity).
  apply claimed_repeat_phrase_check in Hc. vm_compute in Hc. discriminate Hc.
Qed.

(** C3 (amended): the block kind repeat is reported exactly for the
    snippets that contain, as whole words and in any case, repeat COUNT
    time or repeat COUNT times, where COUNT is a decimal integer, a
    colon- or dollar-prefixed identifier, or any non-empty run of word
    characters and dots; every count the claim names is such a COUNT, so
    its phrase is always reported; repeat is reported for
    [repeat 3 times] and not for [repeat times]. *)
Theorem repeat_needs_count (script : string) :
  ("repeat" ∈ blocks (analyze_script script) <-> repeat_phrase (chars script))
  /\ (claimed_repeat_phrase (chars script) ->
      "repeat" ∈ blocks (analyze_script script))
  /\ ("repeat" ∈ blocks (analyze_script "repeat 3 times"))
  /\ ("repeat" ∉ blocks (analyze_script "repeat times")).
Proof.
  assert (Hiff : "repeat" ∈ blocks (analyze_script script)
                 <-> repeat_phrase (chars script)); [|split; [exact Hiff|split;
    [intros H; apply Hiff, claimed_phrase_accepted, H|split]]].
  - simpl. rewrite BlockFacts.detect_blocks_spec, <- BlockFacts.search_repeat.
    split.
    + intros (name & pat & Hin & Hs & Hx). simpl in Hin.
      destruct Hin as [[= <- <-]|Hin]; [vm_compute in Hx; discriminate|].
      destruct Hin as [[= <- <-]|Hin]; [vm_compute in Hx; discriminate|].
      destruct Hin as [[= <- <-]|Hin]; [exact Hs|].
      repeat (destruct Hin as [[= <- <-]|Hin]; [vm_compute in Hx; discriminate|]).
      destruct Hin.
    + intros Hs. exists "repeat", REPEAT_PATTERN. split; [|split].
      * simpl. auto.
      * exact Hs.
      * reflexivity.
  - assert (H : blocks (analyze_script "repeat 3 times") = {[ "repeat" ]})
      by (vm_compute; reflexivity).
    rewrite H. apply elem_of_singleton. reflexivity.
  - assert (H : blocks (analyze_script "repeat times") = ∅)
      by (vm_compute; reflexivity).
    rewrite H. apply not_elem_of_empty.
Qed.

Lemma repeat_needs_count_witness :
  "repeat" ∈ blocks (analyze_script "repeat user.items times").
Proof.
  apply (proj1 (proj2 (repeat_needs_count "repeat user.items times"))).
  exists [], (chars "repeat"), (chars " "), (chars "user.items"), (chars " "),
    (chars "times"), [].
  split; [reflexivity|]. split; [reflexivity|]. split; [split; [discriminate|reflexivity]|].
  split; [right; right; right; reflexivity|].
  split; [split; [discriminate|reflexivity]|].
  split; [right; reflexivity|]. split; reflexivity.
Defined.

(** * Further properties of the scanner *)

(** ** Usage records *)

Lemma set_truthy_union (s t : gset string) :
  set_truthy (s ∪ t) = set_truthy s || set_truthy t.
Proof.
  unfold set_truthy.
  destruct (bool_decide (s ≠ ∅)) eqn:Hs; destruct (bool_decide (t ≠ ∅)) eqn:Ht; simpl.
  - apply bool_decide_eq_true. apply bool_decide_eq_true in Hs.
    intros H. apply empty_union_L in H. tauto.
  - apply bool_decide_eq_true. apply bool_decide_eq_true in Hs.
    intros H. apply empty_union_L in H. tauto.
  - apply bool_decide_eq_true. apply bool_decide_eq_true in Ht.
    intros H. apply empty_union_L in H. tauto.
  - apply bool_decide_eq_false. apply bool_decide_eq_false in Hs, Ht.
    intros H. apply H. apply empty_union_L. split.
    + destruct (decide (s = ∅)); [assumption|tauto].
    + destruct (decide (t = ∅)); [assumption|tauto].
Qed.

(** X1: merging never loses usage: both operands are contained in the
    result, the result is truthy exactly when one of them is, and the
    fresh usage is neutral on either side. *)
Theorem merge_keeps_usage (a b : FileUsage) :
  commands a ⊆ commands (merge a b) /\ commands b ⊆ commands (merge a b)
  /\ blocks a ⊆ blocks (merge a b) /\ blocks b ⊆ blocks (merge a b)
  /\ FileUsage_bool (merge a b) = FileUsage_bool a || FileUsage_bool b
  /\ merge a FileUsage_new = a /\ merge FileUsage_new a = a.
Proof.
  split; [apply union_subseteq_l|]. split; [apply union_subseteq_r|].
  split; [apply union_subseteq_l|]. split; [apply union_subseteq_r|].
  split; [|split].
  - unfold FileUsage_bool. simpl. rewrite !set_truthy_union.
    destruct (set_truthy (commands a)), (set_truthy (commands b)),
      (set_truthy (blocks a)), (set_truthy (blocks b)),
      (positional a), (positional b); reflexivity.
  - apply FileUsage_eq; simpl; [apply union_empty_r_L..|reflexivity].
  - apply FileUsage_eq; simpl; [apply union_empty_l_L..|].
    destruct (positional a); reflexivity.
Qed.

Lemma sorted_spec (s : gset string) :
  StronglySorted String.le (sorted s) /\ NoDup (sorted s)
  /\ (forall x, x ∈ sorted s <-> x ∈ s).
Proof.
  unfold sorted. split; [|split].
  - apply StronglySorted_merge_sort; apply _.
  - rewrite merge_sort_Permutation. apply NoDup_elements.
  - intros x. rewrite merge_sort_Permutation. apply elem_of_elements.
Qed.

Lemma sorted_inj (s t : gset string) : sorted s = sorted t -> s = t.
Proof.
  intros H. apply set_eq. intros x.
  rewrite <- (proj2 (proj2 (sorted_spec s)) x), <- (proj2 (proj2 (sorted_spec t)) x), H.
  reflexivity.
Qed.

(** X2: the lists of a serialized usage are in ascending order, free of
    duplicates and hold exactly the elements of the sets; so two usages
    with the same serialization are equal. *)
Theorem to_dict_sorted_and_faithful (u v : FileUsage) :
  StronglySorted String.le (d_commands (to_dict u))
  /\ StronglySorted String.le (d_blocks (to_dict u))
  /\ NoDup (d_commands (to_dict u)) /\ NoDup (d_blocks (to_dict u))
  /\ list_to_set (d_commands (to_dict u)) = commands u
  /\ list_to_set (d_blocks (to_dict u)) = blocks u
  /\ (to_dict u = to_dict v -> u = v).
Proof.
  simpl.
  destruct (sorted_spec (commands u)) as (Sc & Nc & Ec).
  destruct (sorted_spec (blocks u)) as (Sb & Nb & Eb).
  repeat split; auto.
  - apply set_eq. intros x. rewrite elem_of_list_to_set. apply Ec.
  - apply set_eq. intros x. rewrite elem_of_list_to_set. apply Eb.
  - unfold to_dict. intros [= Hc Hb Hp].
    apply FileUsage_eq; [apply sorted_inj, Hc | apply sorted_inj, Hb | exact Hp].
Qed.

Lemma to_dict_sorted_and_faithful_witness :
  d_commands (to_dict {| commands := {[ "show"; "add" ]}; blocks := ∅;
                         positional := true |}) = ["add"; "show"]
  /\ {| commands := {[ "show"; "add" ]}; blocks := ∅; positional := true |}
     = {| commands := {[ "add"; "show" ]}; blocks := ∅; positional := true |}.
Proof.
  split; [reflexivity|].
  apply (to_dict_sorted_and_faithful
           {| commands := {[ "show"; "add" ]}; blocks := ∅; positional := true |}
           {| commands := {[ "add"; "show" ]}; blocks := ∅; positional := true |}).
  reflexivity.
Defined.

(** X3: the aggregate serialization lists its commands and blocks in
    ascending order without duplicates, and its file count is zero
    exactly when no file is recorded. *)
Theorem aggregate_to_dict_sorted (a : AggregatedUsage) :
  StronglySorted String.le (a_commands (AggregatedUsage_to_dict a))
  /\ StronglySorted String.le (a_blocks (AggregatedUsage_to_dict a))
  /\ (forall x, x ∈ a_commands (AggregatedUsage_to_dict a) <-> x ∈ agg_commands a)
  /\ (forall x, x ∈ a_blocks (AggregatedUsage_to_dict a) <-> x ∈ agg_blocks a)
  /\ (a_file_count (AggregatedUsage_to_dict a) = 0 <-> file_usage a = ∅).
Proof.
  simpl.
  destruct (sorted_spec (agg_commands a)) as (Sc & _ & Ec).
  destruct (sorted_spec (agg_blocks a)) as (Sb & _ & Eb).
  repeat split; try apply Ec; try apply Eb; auto.
  - apply map_size_empty_inv.
  - intros ->. apply map_size_empty.
Qed.

(** X4: the constructor never yields an empty extension set or an empty
    exclusion list: [None] and an empty collection are both replaced by
    the default, a non-empty argument is kept as given, and debug is
    stored unchanged. *)
Theorem Scanner_init_never_empty
    (inc : option (gset string)) (exc : option (list string)) (d : bool) :
  include_extensions (Scanner_init inc exc d) ≠ ∅
  /\ exclude_patterns (Scanner_init inc exc d) ≠ []
  /\ (inc = None \/ inc = Some ∅ ->
        include_extensions (Scanner_init inc exc d)
        = {[ ".html"; ".htm"; ".txt"; ".xml"; ".jinja"; ".jinja2" ]})
  /\ (exc = None \/ exc = Some [] ->
        exclude_patterns (Scanner_init inc exc d)
        = ["__pycache__"; ".git"; "node_modules"; ".venv"; "venv"; "site-packages"])
  /\ (forall e, inc = Some e -> e ≠ ∅ ->
        include_extensions (Scanner_init inc exc d) = e)
  /\ (forall l, exc = Some l -> l ≠ [] ->
        exclude_patterns (Scanner_init inc exc d) = l)
  /\ debug (Scanner_init inc exc d) = d.
Proof.
  assert (Hd : default_extensions ≠ ∅).
  { intros Hemp. apply (not_elem_of_empty (C:=gset string) ".html").
    rewrite <- Hemp. unfold default_extensions.
    apply elem_of_union_l, elem_of_union_l, elem_of_union_l, elem_of_union_l,
      elem_of_union_l, elem_of_singleton. reflexivity. }
  unfold Scanner_init. simpl.
  split; [|split; [|split; [|split; [|split; [|split]]]]].
  - destruct inc as [e|]; [|exact Hd]. unfold set_truthy.
    destruct (bool_decide (e ≠ ∅)) eqn:E; [|exact Hd].
    apply bool_decide_eq_true in E. exact E.
  - destruct exc as [[|p l]|]; discriminate.
  - intros [->| ->]; [reflexivity|]. unfold set_truthy.
    rewrite bool_decide_eq_false_2; [reflexivity|]. intros H. apply H. reflexivity.
  - intros [->| ->]; reflexivity.
  - intros e -> He. unfold set_truthy. rewrite bool_decide_eq_true_2 by exact He.
    reflexivity.
  - intros l -> Hl. destruct l; [congruence|reflexivity].
  - reflexivity.
Qed.

Lemma Scanner_init_never_empty_witness :
  include_extensions (Scanner_init (Some {[ ".hbs" ]}) (Some []) true) = {[ ".hbs" ]}
  /\ exclude_patterns (Scanner_init (Some {[ ".hbs" ]}) (Some []) true)
     = ["__pycache__"; ".git"; "node_modules"; ".venv"; "venv"; "site-packages"]
  /\ include_extensions (Scanner_init (Some ∅) None false)
     = {[ ".html"; ".htm"; ".txt"; ".xml"; ".jinja"; ".jinja2" ]}.
Proof.
  pose proof (Scanner_init_never_empty (Some {[ ".hbs" ]}) (Some []) true)
    as (_ & _ & _ & He & Hi & _).
  pose proof (Scanner_init_never_empty (Some ∅) None false) as (_ & _ & Hd & _).
  split; [|split].
  - apply Hi; [reflexivity|]. apply non_empty_singleton_L.
  - apply He. right. reflexivity.
  - apply Hd. right. reflexivity.
Defined.

(** ** Content and file scanning *)

Lemma merge_fields (a b : FileUsage) :
  commands (merge a b) = commands a ∪ commands b
  /\ blocks (merge a b) = blocks a ∪ blocks b
  /\ positional (merge a b) = (if positional b then true else positional a).
Proof. repeat split; reflexivity. Qed.

Lemma fold_merge_spec (l : list string) : forall (acc : FileUsage),
  let u := fold_left (fun usage script => merge usage (analyze_script script)) l acc in
  (forall x, x ∈ commands u <->
     x ∈ commands acc \/ exists script, In script l /\ x ∈ commands (analyze_script script))
  /\ (forall x, x ∈ blocks u <->
     x ∈ blocks acc \/ exists script, In script l /\ x ∈ blocks (analyze_script script))
  /\ (positional u = true <->
     positional acc = true
     \/ exists script, In script l /\ positional (analyze_script script) = true).
Proof.
  induction l as [|s l IH]; intros acc; cbn zeta.
  - simpl. repeat split; auto; intros [H|(script & [] & _)]; exact H.
  - simpl fold_left. destruct (IH (merge acc (analyze_script s))) as (Hc & Hb & Hp).
    cbn zeta in Hc, Hb, Hp. split; [|split].
    + intros x. rewrite Hc, (proj1 (merge_fields _ _)), elem_of_union. split.
      * intros [[H|H]|(script & Hin & H)]; auto.
        -- right. exists s. split; [left; reflexivity|exact H].
        -- right. exists script. split; [right; exact Hin|exact H].
      * intros [H|(script & [<-|Hin] & H)]; auto. right. eauto.
    + intros x. rewrite Hb, (proj1 (proj2 (merge_fields _ _))), elem_of_union. split.
      * intros [[H|H]|(script & Hin & H)]; auto.
        -- right. exists s. split; [left; reflexivity|exact H].
        -- right. exists script. split; [right; exact Hin|exact H].
      * intros [H|(script & [<-|Hin] & H)]; auto. right. eauto.
    + rewrite Hp, (proj2 (proj2 (merge_fields _ _))). split.
      * intros [H|(script & Hin & H)].
        -- destruct (positional (analyze_script s)) eqn:E; [|auto].
           right. exists s. split; [left; reflexivity|exact E].
        -- right. exists script. split; [right; exact Hin|exact H].
      * intros [H|(script & [<-|Hin] & H)].
        -- left. rewrite H. destruct (positional (analyze_script s)); reflexivity.
        -- left. rewrite H. reflexivity.
        -- right. eauto.
Qed.

(** X5: the usage of a content is the union over its snippets: a command
    or block is reported exactly when some extracted snippet has it, and
    the positional flag is set exactly when some snippet sets it. *)
Theorem scan_content_unions (self : Scanner) (content label : string) :
  exists u, fst (scan_content self content label) = Returned u
    /\ (forall x, x ∈ commands u <->
          exists script, In script (extract_hyperscript content)
                         /\ x ∈ commands (analyze_script script))
    /\ (forall x, x ∈ blocks u <->
          exists script, In script (extract_hyperscript content)
                         /\ x ∈ blocks (analyze_script script))
    /\ (positional u = true <->
          exists script, In script (extract_hyperscript content)
                         /\ positional (analyze_script script) = true).
Proof.
  eexists. split; [apply scan_content_returns|].
  destruct (fold_merge_spec (extract_hyperscript content) FileUsage_new)
    as (Hc & Hb & Hp). cbn zeta in Hc, Hb, Hp.
  split; [|split].
  - intros x. rewrite Hc. simpl. split; [intros [H|H]; [|exact H]|auto].
    exfalso. exact (not_elem_of_empty x H).
  - intros x. rewrite Hb. simpl. split; [intros [H|H]; [|exact H]|auto].
    exfalso. exact (not_elem_of_empty x H).
  - rewrite Hp. simpl. split; [intros [H|H]; [discriminate|exact H]|auto].
Qed.

Lemma scan_content_shape (self : Scanner) (content label : string) :
  exists u out, scan_content self content label = (Returned u, out)
    /\ (debug self = false -> out = []).
Proof.
  unfold scan_content. destruct (debug self); simpl.
  - destruct (FileUsage_bool _); simpl; eexists _, _; split; try reflexivity;
      discriminate.
  - eexists _, _. split; reflexivity.
Qed.

Lemma scan_file_reads (self : Scanner) (fs : FS) (path content : string) :
  fs_read_text fs path = inr content ->
  fst (scan_file self fs path) = fst (scan_content self content path).
Proof.
  intros E. unfold scan_file, read_text. rewrite E. simpl.
  destruct (scan_content_shape self content path) as (u & out & -> & _).
  reflexivity.
Qed.

(** ** Directory scanning *)

Lemma scan_file_quiet (self : Scanner) (fs : FS) (path : string) :
  debug self = false -> snd (scan_file self fs path) = [].
Proof.
  intros Hd. unfold scan_file, read_text.
  destruct (fs_read_text fs path) as [e|content]; simpl.
  - destruct (is_Exception e); [rewrite Hd|]; reflexivity.
  - destruct (scan_content_shape self content path) as (u & out & -> & Ho).
    simpl. exact (Ho Hd).
Qed.

Lemma bind_quiet {A B} (m : io A) (f : A -> io B) :
  snd m = [] -> (forall a, snd (f a) = []) -> snd (bind m f) = [].
Proof.
  destruct m as [[a|e] out]; simpl; intros -> Hf; [|reflexivity].
  specialize (Hf a). destruct (f a) as [r out']. simpl in *. exact Hf.
Qed.

Lemma scan_paths_quiet self fs paths : forall results,
  debug self = false -> snd (scan_paths self fs paths results) = [].
Proof.
  induction paths as [|path l IH]; intros results Hd; simpl; [reflexivity|].
  destruct (fs_is_file fs path && should_scan self path); [|auto].
  apply bind_quiet; [apply scan_file_quiet, Hd|]. intros a. apply IH, Hd.
Qed.

Lemma scan_directory_quiet self fs directory :
  debug self = false -> snd (scan_directory self fs directory) = [].
Proof.
  intros Hd. unfold scan_directory. destruct (negb (fs_exists fs directory)); [reflexivity|].
  apply bind_quiet.
  - unfold rglob. destruct (fs_rglob fs directory); reflexivity.
  - intros l. apply scan_paths_quiet, Hd.
Qed.

(** X7: with debug off, scanning prints nothing, whatever the tree and
    whatever fails. *)
Theorem quiet_without_debug (self : Scanner) (fs : FS)
    (directories : list string) :
  debug self = false -> snd (scan_directories self fs directories) = [].
Proof.
  intros Hd. unfold scan_directories. generalize (∅ : gmap string FileUsage).
  induction directories as [|d l IH]; intros results; simpl; [reflexivity|].
  apply bind_quiet; [apply scan_directory_quiet, Hd|]. intros m. apply IH.
Qed.

Lemma quiet_without_debug_witness :
  snd (scan_directories default_scanner site ["templates"; "missing"]) = [].
Proof. apply quiet_without_debug. reflexivity. Defined.

Lemma scan_paths_lookup self fs paths : forall results m,
  recorded self fs results ->
  fst (scan_paths self fs paths results) = Returned m ->
  forall p u, m !! p = Some u <->
    results !! p = Some u
    \/ (In p paths /\ fs_is_file fs p = true /\ should_scan self p = true
        /\ fst (scan_file self fs p) = Returned u /\ FileUsage_bool u = true).
Proof.
  induction paths as [|path l IH]; intros results m Hres H p u; simpl in H.
  - injection H as <-. split; [auto|]. intros [H|([] & _)]. exact H.
  - destruct (fs_is_file fs path) eqn:Hf; simpl in H;
      [destruct (should_scan self path) eqn:Hs|]; simpl in H.
    + apply fst_bind_Returned in H as (usage & Hu & H).
      assert (Hrec : recorded self fs
                (if FileUsage_bool usage then <[path:=usage]> results else results)).
      { intros q v Hq. destruct (FileUsage_bool usage) eqn:Hb; [|exact (Hres q v Hq)].
        destruct (decide (path = q)) as [->|n].
        - rewrite lookup_insert_eq in Hq. injection Hq as <-. auto.
        - rewrite lookup_insert_ne in Hq by assumption. exact (Hres q v Hq). }
      rewrite (IH _ _ Hrec H p u). split.
      * intros [Hq|(Hin & ?)]; [|right; split; [right; exact Hin|assumption]].
        destruct (FileUsage_bool usage) eqn:Hb; [|auto].
        destruct (decide (path = p)) as [->|n].
        -- rewrite lookup_insert_eq in Hq. injection Hq as <-.
           right. repeat split; auto. left. reflexivity.
        -- rewrite lookup_insert_ne in Hq by assumption. auto.
      * intros [Hq|([<-|Hin] & Hfp & Hsp & Hup & Hbp)].
        -- left. destruct (FileUsage_bool usage) eqn:Hb; [|exact Hq].
           destruct (decide (path = p)) as [->|n].
           ++ rewrite lookup_insert_eq. destruct (Hres p u Hq) as [Hq' _]. congruence.
           ++ rewrite lookup_insert_ne by assumption. exact Hq.
        -- left. assert (usage = u) by congruence. subst usage.
           rewrite Hbp. apply lookup_insert_eq.
        -- right. auto.
    + rewrite (IH _ _ Hres H p u). split.
      * intros [Hq|(Hin & ?)]; [auto|right; split; [right; exact Hin|assumption]].
      * intros [Hq|([<-|Hin] & Hfp & Hsp & ?)]; [auto|congruence|right; auto].
    + rewrite (IH _ _ Hres H p u). split.
      * intros [Hq|(Hin & ?)]; [auto|right; split; [right; exact Hin|assumption]].
      * intros [Hq|([<-|Hin] & Hfp & ?)]; [auto|congruence|right; auto].
Qed.

(** X8: the mapping returned by [scan_directory] for an existing root
    has an entry for a path exactly when the walk yields the path, the
    path is a file, [should_scan] accepts it and scanning it gives a
    non-empty usage; the entry is that usage. *)
Theorem scan_directory_entries (self : Scanner) (fs : FS)
    (directory : string) (paths : list string) (m : gmap string FileUsage) :
  fs_exists fs directory = true ->
  fs_rglob fs directory = inr paths ->
  fst (scan_directory self fs directory) = Returned m ->
  forall p u, m !! p = Some u <->
    In p paths /\ fs_is_file fs p = true /\ should_scan self p = true
    /\ fst (scan_file self fs p) = Returned u /\ FileUsage_bool u = true.
Proof.
  intros He Hr H p u. unfold scan_directory in H. rewrite He in H.
  cbn [negb] in H. apply fst_bind_Returned in H as (l & Hl & H).
  unfold rglob in Hl. rewrite Hr in Hl. injection Hl as <-.
  rewrite (scan_paths_lookup _ _ _ _ _ (recorded_empty _ _) H p u).
  rewrite lookup_empty. split; [intros [?|?]; [discriminate|assumption]|auto].
Qed.

Lemma scan_directory_entries_witness :
  exists m, fst (scan_directory default_scanner site "templates") = Returned m
    /\ m !! "templates/sub/c.txt"
       = Some {| commands := {[ "show" ]}; blocks := ∅; positional := false |}.
Proof.
  destruct (fst (scan_directory default_scanner site "templates")) as [m|e] eqn:E;
    [|vm_compute in E; discriminate].
  exists m. split; [reflexivity|].
  apply (scan_directory_entries default_scanner site "templates"
           ["templates/a.html"; "templates/b.html"; "templates/sub";
            "templates/sub/c.txt"] m eq_refl eq_refl E).
  split; [simpl; tauto|]. split; [reflexivity|]. split; [vm_compute; reflexivity|].
  split; [|vm_compute; reflexivity].
  rewrite (scan_file_reads default_scanner site "templates/sub/c.txt"
             "{% hs %}on click show #x{% endhs %}" eq_refl).
  rewrite scan_content_returns. vm_compute. reflexivity.
Defined.

Lemma scan_directories_from_lookup self fs directories : forall results m,
  recorded self fs results ->
  fst (scan_directories_from self fs directories results) = Returned m ->
  forall p u, m !! p = Some u <->
    results !! p = Some u
    \/ exists d md, In d directories
          /\ fst (scan_directory self fs d) = Returned md /\ md !! p = Some u.
Proof.
  induction directories as [|d l IH]; intros results m Hres H p u; simpl in H.
  - injection H as <-. split; [auto|]. intros [H|(d & md & [] & _)]. exact H.
  - apply fst_bind_Returned in H as (md & Hd & H).
    pose proof (scan_directory_recorded _ _ _ _ Hd) as Hmd.
    rewrite (IH _ _ (recorded_union _ _ _ _ Hmd Hres) H p u). split.
    + intros [Hq|(d' & md' & Hin & ?)].
      * apply lookup_union_Some_raw in Hq as [Hq|[_ Hq]]; [|auto].
        right. exists d, md. split; [left; reflexivity|auto].
      * right. exists d', md'. split; [right; exact Hin|assumption].
    + intros [Hq|(d' & md' & [<-|Hin] & Hd' & Hq)].
      * left. apply lookup_union_Some_raw.
        destruct (md !! p) as [v|] eqn:Hv; [|auto].
        left. destruct (Hmd p v Hv) as [Hv' _]. destruct (Hres p u Hq) as [Hu' _].
        congruence.
      * left. apply lookup_union_Some_raw. left. congruence.
      * right. exists d', md'. auto.
Qed.

(** X10: [scan_directories] returns the union of what [scan_directory]
    returns for each root: a path has an entry exactly when some root's
    mapping has it, with the same usage. *)
Theorem scan_directories_unions (self : Scanner) (fs : FS)
    (directories : list string) (m : gmap string FileUsage) :
  fst (scan_directories self fs directories) = Returned m ->
  forall p u, m !! p = Some u <->
    exists d md, In d directories
      /\ fst (scan_directory self fs d) = Returned md /\ md !! p = Some u.
Proof.
  intros H p u. unfold scan_directories in H.
  rewrite (scan_directories_from_lookup _ _ _ _ _ (recorded_empty _ _) H p u).
  rewrite lookup_empty. split; [intros [?|?]; [discriminate|assumption]|auto].
Qed.

Lemma scan_directories_unions_witness :
  exists m, fst (scan_directories default_scanner site ["missing"; "templates"])
            = Returned m
    /\ forall p u, m !! p = Some u <->
         exists d md, In d ["missing"; "templates"]
           /\ fst (scan_directory default_scanner site d) = Returned md
           /\ md !! p = Some u.
Proof.
  destruct (fst (scan_directories default_scanner site ["missing"; "templates"]))
    as [m|e] eqn:E; [|vm_compute in E; discriminate].
  exists m. split; [reflexivity|].
  exact (scan_directories_unions default_scanner site ["missing"; "templates"] m E).
Defined.

(** ** Keyword patterns *)

Module KeywordFacts.
Import ReFacts.

Local Arguments lit : simpl never.
Local Arguments at_boundary : simpl never.

Lemma same_ci_run w kw :
  wordlike kw -> same_ci w kw -> w <> [] /\ forallb Chr.is_word w = true.
Proof.
  intros [Hne Hw] L. split; [|exact (same_ci_word _ _ L Hw)].
  intros ->. apply same_ci_length in L. destruct (chars kw); [congruence|discriminate].
Qed.

Lemma matches_alts_lits f (words : list string) b w nxt :
  ignorecase f = true -> words <> [] ->
  matches f (alts (map lit words)) b w nxt <->
  exists kw, In kw words /\ same_ci w kw.
Proof.
  intros Hic. induction words as [|kw l IH]; intros Hne; [congruence|].
  destruct l as [|kw' l].
  - simpl. rewrite matches_lit by exact Hic. split.
    + intros H. exists kw. auto.
    + intros (k & [<-|[]] & H). exact H.
  - change (alts (map lit (kw :: kw' :: l)))
      with (Alt (lit kw) (alts (map lit (kw' :: l)))).
    change (matches f (Alt ?a ?r) b w nxt)
      with (matches f a b w nxt \/ matches f r b w nxt).
    rewrite matches_lit by exact Hic. rewrite IH by discriminate. split.
    + intros [H|(k & Hin & H)]; [exists kw; split; [left; reflexivity|exact H]|].
      exists k. split; [right; exact Hin|exact H].
    + intros (k & [<-|Hin] & H); [left; exact H|right; eauto].
Qed.

(** A keyword pattern matches one of its words, in any case, between two
    word boundaries. *)
Lemma keyword_pattern_matches words b w nxt :
  words <> [] ->
  matches IGNORECASE (whole (keyword_pattern words)) b w nxt <->
  (exists kw, In kw words /\ same_ci w kw)
  /\ at_boundary {| before := b; rest := w ++ nxt |} = true
  /\ at_boundary {| before := advance b w; rest := nxt |} = true.
Proof.
  intros Hne. unfold whole, keyword_pattern.
  cbn [fl pre grp post]. split.
  - intros (w1 & w2 & -> & (-> & B1) & w3 & w4 & -> & A & -> & B2).
    apply matches_alts_lits in A; [|reflexivity|exact Hne].
    simpl in *. rewrite app_nil_r in *. auto.
  - intros (A & B1 & B2). exists [], w. split; [reflexivity|].
    split; [split; [reflexivity|exact B1]|].
    exists w, []. rewrite app_nil_r. split; [reflexivity|]. split.
    + apply matches_alts_lits; [reflexivity|exact Hne|exact A].
    + split; [reflexivity|exact B2].
Qed.

Lemma search_keyword_pattern words s :
  words <> [] -> (forall kw, In kw words -> wordlike kw) ->
  is_some (search (keyword_pattern words) s) = true <->
  exists kw, In kw words /\ contains_word kw s.
Proof.
  intros Hne Hw. rewrite search_some. unfold contains_word. split.
  - intros (sk & w & nxt & -> & M).
    apply keyword_pattern_matches in M as ((kw & Hin & L) & B1 & B2); [|exact Hne].
    destruct (same_ci_run w kw (Hw kw Hin) L) as [Hn Hws].
    rewrite word_run_start in B1 by assumption.
    rewrite word_run_end in B2 by assumption.
    exists kw. split; [exact Hin|]. exists sk, w, nxt. repeat split; auto.
    + destruct (ends_word sk); [discriminate|reflexivity].
    + destruct (starts_word nxt); [discriminate|reflexivity].
  - intros (kw & Hin & sk & w & nxt & -> & L & E1 & E2).
    destruct (same_ci_run w kw (Hw kw Hin) L) as [Hn Hws].
    exists sk, w, nxt. split; [reflexivity|].
    apply keyword_pattern_matches; [exact Hne|]. split; [eauto|].
    rewrite word_run_start, word_run_end by assumption.
    rewrite E1, E2. auto.
Qed.

Lemma words_wordlike (words : list string) :
  forallb (fun kw => negb (Nat.eqb (length (chars kw)) 0)
                     && forallb Chr.is_word (chars kw)) words = true ->
  forall kw, In kw words -> wordlike kw.
Proof.
  intros H kw Hin. rewrite forallb_forall in H. specialize (H kw Hin).
  apply andb_true_iff in H as [H1 H2]. split; [|exact H2].
  intros E. rewrite E in H1. discriminate.
Qed.

(** The pattern of the for block: the keyword, blanks, then each or
    every, the whole between word boundaries. *)
Lemma for_matches b w nxt :
  matches IGNORECASE (whole FOR_PATTERN) b w nxt <->
  exists kw ws quant, w = kw ++ ws ++ quant
    /\ same_ci kw "for" /\ blanks ws
    /\ (same_ci quant "each" \/ same_ci quant "every")
    /\ at_boundary {| before := b; rest := w ++ nxt |} = true
    /\ at_boundary {| before := advance b w; rest := nxt |} = true.
Proof.
  unfold whole, FOR_PATTERN. cbn [fl pre grp post].
  unfold ws_plus, seq, fold_right, alts. split.
  - intros (w1 & w2 & -> & (w3 & w4 & -> & (-> & B1) & kw & w5 & -> & L
             & ws & w6 & -> & P & ->)
             & q & w7 & -> & Q & -> & B2).
    apply matches_lit in L; [|reflexivity].
    apply BlockFacts.matches_plus in P.
    assert (Q' : same_ci q "each" \/ same_ci q "every").
    { destruct Q as [Q|Q]; [left|right];
        (apply matches_lit in Q; [exact Q|reflexivity]). }
    simpl in B1, B2. rewrite !app_nil_r in *.
    exists kw, ws, q. rewrite <- !app_assoc in *.
    change ([] ++ kw ++ ws ++ q ++ nxt) with (kw ++ ws ++ q ++ nxt).
    change ([] ++ kw ++ ws ++ q) with (kw ++ ws ++ q).
    rewrite !advance_app in *. repeat split; auto; apply P.
  - intros (kw & ws & q & -> & L & P & Q & B1 & B2).
    exists (kw ++ ws), q. split; [rewrite <- app_assoc; reflexivity|]. split.
    + exists [], (kw ++ ws). split; [reflexivity|]. split.
      * split; [reflexivity|]. simpl. rewrite <- !app_assoc in B1. rewrite <- !app_assoc. exact B1.
      * exists kw, ws. split; [reflexivity|]. split.
        -- apply matches_lit; [reflexivity|exact L].
        -- exists ws, []. rewrite app_nil_r. split; [reflexivity|].
           split; [apply BlockFacts.matches_plus; exact P|reflexivity].
    + exists q, []. rewrite app_nil_r. split; [reflexivity|]. split.
      * destruct Q as [Q|Q]; [left|right]; (apply matches_lit; [reflexivity|exact Q]).
      * split; [reflexivity|]. rewrite !advance_app in B2. rewrite !advance_app. exact B2.
Qed.

Lemma wordlike_for : wordlike "for" /\ wordlike "each" /\ wordlike "every".
Proof. repeat split; (discriminate || (vm_compute; reflexivity)). Qed.

Lemma search_for s :
  is_some (search FOR_PATTERN s) = true <-> for_phrase s.
Proof.
  destruct wordlike_for as (Wfor & Weach & Wevery).
  rewrite search_some. unfold for_phrase. split.
  - intros (sk & w & nxt & -> & M).
    apply for_matches in M as (kw & ws & q & -> & L & P & Q & B1 & B2).
    destruct (same_ci_run kw "for" Wfor L) as [Kn Kw].
    assert (Qr : q <> [] /\ forallb Chr.is_word q = true).
    { destruct Q as [Q|Q];
        [exact (same_ci_run q "each" Weach Q)
        |exact (same_ci_run q "every" Wevery Q)]. }
    destruct Qr as [Qn Qw].
    rewrite <- !app_assoc in B1. rewrite word_run_start in B1 by assumption.
    rewrite !advance_app in B2. rewrite word_run_end in B2 by assumption.
    exists sk, kw, ws, q, nxt. rewrite <- !app_assoc. repeat split; auto;
      try apply P.
    + destruct (ends_word sk); [discriminate|reflexivity].
    + destruct (starts_word nxt); [discriminate|reflexivity].
  - intros (sk & kw & ws & q & nxt & -> & L & P & Q & E1 & E2).
    destruct (same_ci_run kw "for" Wfor L) as [Kn Kw].
    assert (Qr : q <> [] /\ forallb Chr.is_word q = true).
    { destruct Q as [Q|Q];
        [exact (same_ci_run q "each" Weach Q)
        |exact (same_ci_run q "every" Wevery Q)]. }
    destruct Qr as [Qn Qw].
    exists sk, (kw ++ ws ++ q), nxt. split; [rewrite <- !app_assoc; reflexivity|].
    apply for_matches. exists kw, ws, q. repeat split; auto; try apply P.
    + rewrite <- !app_assoc. rewrite word_run_start by assumption.
      rewrite E1. reflexivity.
    + rewrite !advance_app. rewrite word_run_end by assumption.
      rewrite E2. reflexivity.
Qed.

End KeywordFacts.

(** ** What the classifier reports *)

Lemma detect_blocks_cases (script : text) (x : string) :
  x ∈ detect_blocks script <->
  (x = "if" /\ (is_some (search (bare_keyword "if") script) = true
                \/ is_some (search (bare_keyword "unless") script) = true))
  \/ (x = "repeat" /\ is_some (search REPEAT_PATTERN script) = true)
  \/ (x = "for" /\ is_some (search FOR_PATTERN script) = true)
  \/ (x = "while" /\ is_some (search (bare_keyword "while") script) = true)
  \/ (x = "fetch" /\ is_some (search (bare_keyword "fetch") script) = true)
  \/ (x = "async" /\ is_some (search (bare_keyword "async") script) = true).
Proof.
  rewrite BlockFacts.detect_blocks_spec. split.
  - intros (name & pat & Hin & Hs & ->). simpl in Hin.
    destruct Hin as [[= <- <-]|Hin]; [left; auto|].
    destruct Hin as [[= <- <-]|Hin]; [left; auto|].
    destruct Hin as [[= <- <-]|Hin]; [right; left; auto|].
    destruct Hin as [[= <- <-]|Hin]; [right; right; left; auto|].
    destruct Hin as [[= <- <-]|Hin]; [right; right; right; left; auto|].
    destruct Hin as [[= <- <-]|Hin]; [right; right; right; right; left; auto|].
    destruct Hin as [[= <- <-]|[]]. right; right; right; right; right; auto.
  - intros [(-> & [H|H])|[(-> & H)|[(-> & H)|[(-> & H)|[(-> & H)|(-> & H)]]]]].
    + exists "if", (bare_keyword "if"). simpl. auto.
    + exists "unless", (bare_keyword "unless"). simpl. auto.
    + exists "repeat", REPEAT_PATTERN. simpl. auto.
    + exists "for", FOR_PATTERN. simpl. auto 6.
    + exists "while", (bare_keyword "while"). simpl. auto 7.
    + exists "fetch", (bare_keyword "fetch"). simpl. auto 8.
    + exists "async", (bare_keyword "async"). simpl. auto 9.
Qed.

(** X11: the bare-keyword block kinds: if is reported exactly when the
    snippet contains if or unless as a whole word in any case; while,
    fetch and async are each reported exactly when the snippet contains
    that word. *)
Theorem keyword_blocks (script : string) :
  ("if" ∈ blocks (analyze_script script) <->
     contains_word "if" (chars script) \/ contains_word "unless" (chars script))
  /\ ("while" ∈ blocks (analyze_script script) <-> contains_word "while" (chars script))
  /\ ("fetch" ∈ blocks (analyze_script script) <-> contains_word "fetch" (chars script))
  /\ ("async" ∈ blocks (analyze_script script) <-> contains_word "async" (chars script)).
Proof.
  simpl. rewrite !detect_blocks_cases.
  rewrite <- !BlockFacts.search_bare_keyword by (discriminate || reflexivity).
  repeat split;
    try (intros [(E & H)|[(E & H)|[(E & H)|[(E & H)|[(E & H)|(E & H)]]]]];
         try discriminate E; exact H);
    intros H; auto 10.
Qed.

(** X12: the block kind for is reported exactly when the snippet
    contains for each or for every, as whole words in any case and
    separated by blanks; a bare for is not enough. *)
Theorem for_needs_each_or_every (script : string) :
  ("for" ∈ blocks (analyze_script script) <-> for_phrase (chars script))
  /\ ("for" ∈ blocks (analyze_script "for each item in .list"))
  /\ ("for" ∉ blocks (analyze_script "for i = 0")).
Proof.
  split; [|split].
  - simpl. rewrite detect_blocks_cases, <- KeywordFacts.search_for. split.
    + intros [(E & H)|[(E & H)|[(E & H)|[(E & H)|[(E & H)|(E & H)]]]]];
        try discriminate E. exact H.
    + intros H. auto 10.
  - assert (H : blocks (analyze_script "for each item in .list") = {[ "for" ]})
      by (vm_compute; reflexivity).
    rewrite H. apply elem_of_singleton. reflexivity.
  - assert (H : blocks (analyze_script "for i = 0") = ∅) by (vm_compute; reflexivity).
    rewrite H. apply not_elem_of_empty.
Qed.

(** X13: every block kind reported is one of the six valid kinds. *)
Theorem blocks_are_valid (script : string) :
  blocks (analyze_script script) ⊆ VALID_BLOCKS.
Proof.
  intros x. simpl. rewrite detect_blocks_cases. unfold VALID_BLOCKS.
  rewrite !elem_of_union, !elem_of_singleton.
  intros [(-> & _)|[(-> & _)|[(-> & _)|[(-> & _)|[(-> & _)|(-> & _)]]]]]; auto 10.
Qed.

(** X14: the positional flag is set exactly when the snippet contains
    one of first, last, next, previous, closest, parent as a whole word,
    in any case. *)
Theorem positional_flag (script : string) :
  positional (analyze_script script) = true <->
  exists kw, In kw positional_words /\ contains_word kw (chars script).
Proof.
  simpl. change POSITIONAL_PATTERN with (keyword_pattern positional_words).
  apply KeywordFacts.search_keyword_pattern; [discriminate|].
  apply KeywordFacts.words_wordlike. reflexivity.
Qed.

(** ** Successive matches of a keyword pattern *)

Module FinditerFacts.
Import ReFacts KeywordFacts.

Local Arguments lit : simpl never.
Local Arguments at_boundary : simpl never.
Local Arguments match_at : simpl never.
Local Arguments attempts : simpl never.

Lemma consumed_app (k : cursor) (w s' : text) b' :
  rest k = w ++ s' -> consumed k {| before := b'; rest := s' |} = w.
Proof.
  intros H. unfold consumed. simpl. rewrite H, length_app.
  replace (length w + length s' - length s') with (length w) by lia.
  apply take_app_length.
Qed.

(** The attempts of a keyword pattern at a cursor: a run that is one of
    the words in any case, standing between two word boundaries. *)
Lemma keyword_attempts_In words k m :
  words <> [] ->
  In m (attempts (keyword_pattern words) k) <->
  exists w nxt, rest k = w ++ nxt
    /\ (exists kw, In kw words /\ same_ci w kw)
    /\ at_boundary k = true
    /\ at_boundary {| before := advance (before k) w; rest := nxt |} = true
    /\ m = {| group1 := w; span := length w |}.
Proof.
  intros Hne. unfold attempts, keyword_pattern. cbn [fl pre grp post]. split.
  - intros H. apply in_flat_map in H as (k1 & H1 & H).
    apply in_flat_map in H as (k2 & H2 & H).
    apply in_map_iff in H as (k3 & <- & H3).
    apply run_matches in H1 as (w1 & R1 & B1 & -> & Hb1).
    apply run_matches in H2 as (w2 & R2 & B2 & M2).
    apply run_matches in H3 as (w3 & R3 & B3 & -> & Hb3).
    simpl in R1, B1, R3, B3.
    apply matches_alts_lits in M2; [|reflexivity|exact Hne].
    exists w2, (rest k2). rewrite R1. split; [exact R2|]. split; [exact M2|].
    split; [destruct k; simpl in *; rewrite <- R1 in Hb1; exact Hb1|].
    split; [rewrite <- B1, <- B2, R3; exact Hb3|].
    assert (E1 : consumed k1 k2 = w2).
    { destruct k2 as [b2 r2]. apply consumed_app. exact R2. }
    assert (E2 : consumed k k3 = w2).
    { destruct k3 as [b3 r3]. apply consumed_app. simpl in R3.
      rewrite R1, R2, R3. reflexivity. }
    rewrite E1, E2. reflexivity.
  - intros (w & nxt & R & A & B1 & B2 & ->).
    apply in_flat_map. exists k. split.
    { apply run_matches. exists []. repeat split; auto;
        destruct k; simpl in *; exact B1. }
    apply in_flat_map. exists {| before := advance (before k) w; rest := nxt |}. split.
    { apply run_matches. exists w. simpl. repeat split; auto.
      apply matches_alts_lits; [reflexivity|exact Hne|exact A]. }
    apply in_map_iff. exists {| before := advance (before k) w; rest := nxt |}. split.
    + f_equal; [|f_equal]; apply consumed_app; exact R.
    + apply run_matches. exists []. simpl. repeat split; auto.
Qed.

Lemma word_run_unique (w w' nxt nxt' : text) :
  w ++ nxt = w' ++ nxt' ->
  forallb Chr.is_word w = true -> forallb Chr.is_word w' = true ->
  starts_word nxt = false -> starts_word nxt' = false -> w = w'.
Proof.
  revert w'. induction w as [|c w IH]; intros [|c' w'] H Hw Hw' Hn Hn'; simpl in *.
  - reflexivity.
  - subst nxt. simpl in Hn. apply andb_true_iff in Hw' as [Hc _]. congruence.
  - subst nxt'. simpl in Hn'. apply andb_true_iff in Hw as [Hc _]. congruence.
  - injection H as <- H. apply andb_true_iff in Hw as [_ Hw].
    apply andb_true_iff in Hw' as [_ Hw']. f_equal. eauto.
Qed.

Lemma word_behind_run b (t : text) :
  t <> [] -> forallb Chr.is_word t = true -> word_behind (advance b t) = true.
Proof.
  intros Hne Hw. rewrite advance_last.
  destruct (last t) as [c|] eqn:E; [|apply last_None in E; congruence].
  apply last_Some in E as (t' & ->). rewrite forallb_app in Hw.
  apply andb_true_iff in Hw as [_ Hc]. simpl in *. rewrite andb_true_r in Hc. exact Hc.
Qed.

Lemma boundary_before_run b (w tail : text) :
  w <> [] -> forallb Chr.is_word w = true ->
  at_boundary {| before := b; rest := w ++ tail |} = negb (word_behind b).
Proof.
  intros Hne Hw. unfold at_boundary, word_before, word_after, word_behind. simpl.
  destruct w as [|c w]; [congruence|]. simpl in *.
  apply andb_true_iff in Hw as [-> _].
  destruct b as [d|]; [destruct (Chr.is_word d)|]; reflexivity.
Qed.

Section Keyword.
Variable words : list string.
Hypothesis words_ne : words <> [].
Hypothesis words_ok : forall kw, In kw words -> wordlike kw.

Lemma keyword_attempt_shape k m :
  In m (attempts (keyword_pattern words) k) <->
  exists w nxt, rest k = w ++ nxt
    /\ (exists kw, In kw words /\ same_ci w kw)
    /\ w <> [] /\ forallb Chr.is_word w = true
    /\ word_behind (before k) = false /\ starts_word nxt = false
    /\ m = {| group1 := w; span := length w |}.
Proof.
  rewrite keyword_attempts_In by exact words_ne. split.
  - intros (w & nxt & R & (kw & Hin & L) & B1 & B2 & ->).
    destruct (same_ci_run w kw (words_ok kw Hin) L) as [Hn Hw].
    destruct k as [b r]. simpl in *. subst r.
    rewrite boundary_before_run in B1 by assumption.
    rewrite word_run_end in B2 by assumption.
    exists w, nxt. repeat split; eauto.
    + destruct (word_behind b); [discriminate|reflexivity].
    + destruct (starts_word nxt); [discriminate|reflexivity].
  - intros (w & nxt & R & A & Hn & Hw & B1 & B2 & ->).
    exists w, nxt. repeat split; auto.
    + destruct k as [b r]. simpl in *. subst r.
      rewrite boundary_before_run by assumption. rewrite B1. reflexivity.
    + rewrite word_run_end by assumption. rewrite B2. reflexivity.
Qed.

Lemma head_In {A} (l : list A) (x : A) : head l = Some x -> In x l.
Proof. destruct l; [discriminate|]. intros [= ->]. left. reflexivity. Qed.

Lemma first_advancing_In (l : list mtch) (m : mtch) :
  first_advancing l = Some m -> In m l.
Proof.
  induction l as [|a l IH]; simpl; [discriminate|].
  destruct (span a); [auto|]. intros [= ->]. auto.
Qed.

Lemma match_at_In adv p k m : match_at adv p k = Some m -> In m (attempts p k).
Proof.
  unfold match_at. destruct adv; [apply first_advancing_In|apply head_In].
Qed.

Lemma scan_zero p b s :
  scan p b s 0 =
  match match_at false p {| before := b; rest := s |} with
  | None => match s with c :: s' => scan p (Some c) s' 0 | [] => [] end
  | Some m =>
      match span m with
      | S n => m :: match s with c :: s' => scan p (Some c) s' n | [] => [] end
      | O =>
          m :: match match_at true p {| before := b; rest := s |} with
               | Some m' =>
                   m' :: match s with
                         | c :: s' => scan p (Some c) s' (pred (span m'))
                         | [] => []
                         end
               | None => match s with c :: s' => scan p (Some c) s' 0 | [] => [] end
               end
      end
  end.
Proof. destruct s; reflexivity. Qed.

(** Whatever [finditer] yields is an attempt at some position. *)
Lemma scan_sound p s : forall b skip m,
  In m (scan p b s skip) ->
  exists sk r, s = sk ++ r
    /\ In m (attempts p {| before := advance b sk; rest := r |}).
Proof.
  induction s as [|c s IH]; intros b skip m H.
  - destruct skip as [|n]; [|destruct H].
    rewrite scan_zero in H.
    destruct (match_at false p _) as [m0|] eqn:E0; [|destruct H].
    apply match_at_In in E0.
    destruct (span m0).
    + destruct H as [<-|H]; [exists [], []; auto|].
      destruct (match_at true p _) as [m1|] eqn:E1; [|destruct H].
      apply match_at_In in E1. destruct H as [<-|[]]. exists [], []. auto.
    + destruct H as [<-|[]]. exists [], []. auto.
  - assert (Hnext : forall n, In m (scan p (Some c) s n) ->
      exists sk r, c :: s = sk ++ r
        /\ In m (attempts p {| before := advance b sk; rest := r |})).
    { intros n Hn. apply IH in Hn as (sk & r & -> & Hn).
      exists (c :: sk), r. auto. }
    destruct skip as [|n]; [|exact (Hnext n H)].
    rewrite scan_zero in H.
    destruct (match_at false p _) as [m0|] eqn:E0; [|exact (Hnext 0 H)].
    apply match_at_In in E0.
    destruct (span m0).
    + destruct H as [<-|H]; [exists [], (c :: s); auto|].
      destruct (match_at true p _) as [m1|] eqn:E1; [|exact (Hnext 0 H)].
      apply match_at_In in E1.
      destruct H as [<-|H]; [exists [], (c :: s); auto|eauto].
    + destruct H as [<-|H]; [exists [], (c :: s); auto|eauto].
Qed.

(** [finditer] with a keyword pattern yields every whole-word occurrence
    of a keyword. *)
Lemma scan_finds : forall sk b skip w nxt,
  skip <= length sk ->
  word_behind (advance b sk) = false ->
  (exists kw, In kw words /\ same_ci w kw) ->
  starts_word nxt = false ->
  In {| group1 := w; span := length w |}
     (scan (keyword_pattern words) b (sk ++ w ++ nxt) skip).
Proof.
  induction sk as [|c sk IH]; intros b skip w nxt Hskip Hb A Hn.
  - simpl in Hskip, Hb. assert (skip = 0) by lia. subst skip.
    destruct A as (kw & Hin & L).
    destruct (same_ci_run w kw (words_ok kw Hin) L) as [Hne Hw].
    assert (H0 : In {| group1 := w; span := length w |}
                   (attempts (keyword_pattern words)
                      {| before := b; rest := w ++ nxt |})).
    { apply keyword_attempt_shape. exists w, nxt. repeat split; eauto. }
    simpl app. rewrite scan_zero.
    destruct (match_at false (keyword_pattern words) _) as [m1|] eqn:E1.
    + apply match_at_In in E1.
      apply keyword_attempt_shape in E1
        as (w1 & nxt1 & R1 & _ & Hne1 & Hw1 & _ & Hn1 & ->).
      simpl in R1.
      assert (w = w1) by (eapply word_run_unique; eauto). subst w1.
      simpl span. destruct w as [|c w]; [congruence|]. simpl length.
      left. reflexivity.
    + unfold match_at in E1. destruct (attempts _ _); [destruct H0|discriminate].
  - simpl app.
    assert (Hnext : forall n, n <= length sk ->
      In {| group1 := w; span := length w |}
         (scan (keyword_pattern words) (Some c) (sk ++ w ++ nxt) n)).
    { intros n Hle. apply IH; auto. }
    destruct skip as [|n]; [|apply Hnext; simpl in Hskip; lia].
    rewrite scan_zero.
    destruct (match_at false (keyword_pattern words) _) as [m1|] eqn:E1;
      [|apply Hnext; lia].
    apply match_at_In in E1.
    apply keyword_attempt_shape in E1
      as (w1 & nxt1 & R1 & _ & Hne1 & Hw1 & _ & Hn1 & ->).
    simpl in R1. simpl span.
    destruct w1 as [|c1 w1]; [congruence|]. simpl length.
    right. apply Hnext.
    change (c :: sk ++ w ++ nxt) with ((c :: sk) ++ w ++ nxt) in R1.
    apply app_eq_app in R1 as (l & [[E _]|[E _]]).
    + apply (f_equal (@length ascii)) in E. rewrite length_app in E. simpl in E. lia.
    + exfalso. rewrite E, forallb_app in Hw1.
      apply andb_true_iff in Hw1 as [Hw1 _].
      rewrite (word_behind_run b (c :: sk)) in Hb; [discriminate|discriminate|exact Hw1].
Qed.

Lemma advance_None_last (sk : text) : advance None sk = last sk.
Proof. rewrite advance_last. destruct (last sk); reflexivity. Qed.

(** The texts of group 1 over all the matches of a keyword pattern are
    exactly the whole-word occurrences of its keywords. *)
Lemma finditer_keyword (s w : text) :
  (exists m, In m (finditer (keyword_pattern words) s) /\ group1 m = w) <->
  exists sk nxt, s = sk ++ w ++ nxt
    /\ (exists kw, In kw words /\ same_ci w kw)
    /\ ends_word sk = false /\ starts_word nxt = false.
Proof.
  unfold finditer. split.
  - intros (m & Hm & <-). apply scan_sound in Hm as (sk & r & -> & Hm).
    apply keyword_attempt_shape in Hm as (w & nxt & R & A & _ & _ & B & Hn & ->).
    simpl in R, B. subst r. rewrite advance_None_last in B.
    exists sk, nxt. repeat split; auto.
  - intros (sk & nxt & -> & A & B & Hn).
    exists {| group1 := w; span := length w |}. split; [|reflexivity].
    apply scan_finds; auto; [lia|]. rewrite advance_None_last. exact B.
Qed.

End Keyword.

End FinditerFacts.

(** ** Commands *)

Lemma commands_fold (l : list mtch) : forall (acc : gset string) (x : string),
  x ∈ fold_left (fun acc m => acc ∪ {[ lower (str (group1 m)) ]}) l acc
  <-> x ∈ acc \/ exists m, In m l /\ x = lower (str (group1 m)).
Proof.
  induction l as [|m l IH]; intros acc x; simpl.
  - split; [auto | intros [H|(m & [] & _)]; exact H].
  - rewrite IH, elem_of_union, elem_of_singleton. split.
    + intros [[H|H]|(m' & Hin & H)].
      * left. exact H.
      * right. exists m. split; [left; reflexivity|exact H].
      * right. exists m'. split; [right; exact Hin|exact H].
    + intros [H|(m' & [E|Hin] & H)].
      * left. left. exact H.
      * left. right. rewrite E. exact H.
      * right. exists m'. split; [exact Hin|exact H].
Qed.

Lemma lower_same_ci (w : text) (kw : string) :
  same_ci w kw -> lower (str w) = lower kw.
Proof.
  unfold same_ci, lower, chars, str. intros H.
  rewrite list_ascii_of_string_of_list_ascii, H. reflexivity.
Qed.

Lemma command_words_wordlike : forall kw, In kw command_words -> wordlike kw.
Proof. apply KeywordFacts.words_wordlike. vm_compute. reflexivity. Qed.

(** X15: a command is reported exactly when it is the lower-case form
    of a vocabulary keyword that the snippet contains as a whole word,
    in any case: no occurrence is missed and nothing else is reported. *)
Theorem commands_reported (script x : string) :
  x ∈ commands (analyze_script script) <->
  exists kw, In kw command_words /\ contains_word kw (chars script)
             /\ x = lower kw.
Proof.
  simpl. unfold detect_commands. rewrite commands_fold.
  change COMMAND_PATTERN with (keyword_pattern command_words).
  assert (Hne : command_words <> []) by discriminate.
  split.
  - intros [H|(m & Hm & ->)]; [exfalso; exact (not_elem_of_empty x H)|].
    assert (Hex : exists m', In m' (finditer (keyword_pattern command_words)
                                     (chars script)) /\ group1 m' = group1 m)
      by (exists m; split; [exact Hm|reflexivity]).
    apply (FinditerFacts.finditer_keyword command_words Hne command_words_wordlike)
      in Hex as (sk & nxt & Hs & (kw & Hin & L) & B1 & B2).
    exists kw. split; [exact Hin|]. split.
    + exists sk, (group1 m), nxt. auto.
    + apply lower_same_ci, L.
  - intros (kw & Hin & (sk & w & nxt & Hs & L & B1 & B2) & ->). right.
    assert (Hex : exists sk' nxt', chars script = sk' ++ w ++ nxt'
              /\ (exists kw', In kw' command_words /\ same_ci w kw')
              /\ ends_word sk' = false /\ starts_word nxt' = false)
      by (exists sk, nxt; split; [exact Hs|]; split; [exists kw; auto|auto]).
    apply (FinditerFacts.finditer_keyword command_words Hne command_words_wordlike)
      in Hex as (m & Hm & Hg).
    exists m. split; [exact Hm|]. rewrite Hg. symmetry. apply lower_same_ci, L.
Qed.

Lemma lower_commands_valid :
  forall kw, In kw command_words -> lower kw ∈ VALID_COMMANDS.
Proof.
  assert (H : forallb (fun kw => bool_decide (lower kw ∈ VALID_COMMANDS))
                command_words = true) by (vm_compute; reflexivity).
  intros kw Hin. rewrite forallb_forall in H.
  specialize (H kw Hin). apply bool_decide_eq_true in H. exact H.
Qed.

(** X16: every command reported is one of the valid lower-case command
    names. *)
Theorem commands_are_valid (script : string) :
  commands (analyze_script script) ⊆ VALID_COMMANDS.
Proof.
  intros x. simpl. unfold detect_commands. rewrite commands_fold.
  change COMMAND_PATTERN with (keyword_pattern command_words).
  intros [H|(m & Hm & ->)]; [exfalso; exact (not_elem_of_empty x H)|].
  assert (Hex : exists m', In m' (finditer (keyword_pattern command_words)
                                   (chars script)) /\ group1 m' = group1 m)
    by (exists m; split; [exact Hm|reflexivity]).
  apply (FinditerFacts.finditer_keyword command_words ltac:(discriminate)
           command_words_wordlike) in Hex as (sk & nxt & Hs & (kw & Hin & L) & _).
  rewrite (lower_same_ci _ _ L). apply lower_commands_valid, Hin.
Qed.

(** ** Extraction *)

Lemma lstrip_spec (t : text) :
  (exists sp, t = sp ++ lstrip t /\ forallb Chr.is_space sp = true)
  /\ (forall c r, lstrip t = c :: r -> Chr.is_space c = false).
Proof.
  induction t as [|c t [(sp & Ht & Hsp) Hh]]; simpl.
  - split; [exists []; auto | discriminate].
  - destruct (Chr.is_space c) eqn:E.
    + split; [|exact Hh]. exists (c :: sp). simpl. rewrite E, Hsp.
      split; [congruence|reflexivity].
    + split; [exists []; auto|]. intros c' r [= <- <-]. exact E.
Qed.

Lemma rstrip_spec (u : text) :
  (exists sp, u = rstrip u ++ sp)
  /\ (forall c, last (rstrip u) = Some c -> Chr.is_space c = false).
Proof.
  unfold rstrip. destruct (lstrip_spec (rev u)) as [(sp & Hu & _) Hh]. split.
  - exists (rev sp). apply (f_equal (@rev ascii)) in Hu.
    rewrite rev_involutive, rev_app_distr in Hu. exact Hu.
  - intros c Hc. destruct (lstrip (rev u)) as [|d r] eqn:E; [discriminate|].
    simpl in Hc. rewrite last_snoc in Hc. injection Hc as <-. exact (Hh d r eq_refl).
Qed.

Lemma strip_spec (t : text) :
  (forall c, head (strip t) = Some c -> Chr.is_space c = false)
  /\ (forall c, last (strip t) = Some c -> Chr.is_space c = false).
Proof.
  unfold strip. destruct (rstrip_spec (lstrip t)) as [(sp & Hu) Hl].
  split; [|exact Hl]. intros c Hc.
  destruct (rstrip (lstrip t)) as [|d r] eqn:E; [discriminate|].
  simpl in Hc. injection Hc as <-. simpl in Hu.
  exact (proj2 (lstrip_spec t) d (r ++ sp) Hu).
Qed.

(** X17: every extracted snippet is non-empty and trimmed: it neither
    starts nor ends with a blank. *)
Theorem snippets_are_stripped (content script : string) :
  In script (extract_hyperscript content) ->
  script <> EmptyString
  /\ (forall c, head (chars script) = Some c -> Chr.is_space c = false)
  /\ (forall c, last (chars script) = Some c -> Chr.is_space c = false).
Proof.
  unfold extract_hyperscript. intros H.
  apply in_flat_map in H as (pattern & _ & H).
  apply in_flat_map in H as (m & _ & H).
  destruct (strip (group1 m)) as [|c r] eqn:E; [destruct H|].
  destruct H as [<-|[]]. unfold chars, str.
  rewrite list_ascii_of_string_of_list_ascii, <- E.
  split; [rewrite E; discriminate|]. apply strip_spec.
Qed.

Lemma snippets_are_stripped_witness :
  In "on click show #x"
     (extract_hyperscript "{% hs %}  on click show #x
 {% endhs %}")
  /\ Chr.is_space "o" = false /\ Chr.is_space "x" = false.
Proof.
  assert (H : In "on click show #x"
                (extract_hyperscript "{% hs %}  on click show #x
 {% endhs %}")) by (vm_compute; left; reflexivity).
  split; [exact H|].
  destruct (snippets_are_stripped _ _ H) as (_ & Hh & Hl).
  split; [apply Hh|apply Hl]; reflexivity.
Defined.

(** * The scanner on a host whose calls can fail *)

Module HostFacts.

Lemma bind_ret {A B} (a : A) (f : A -> io B) : bind (ret a) f = f a.
Proof. unfold bind, ret. destruct (f a). reflexivity. Qed.

Lemma fst_bind_Raised {A B} (m : io A) (f : A -> io B) (e : exn) :
  fst (bind m f) = Raised e <->
  fst m = Raised e \/ exists a, fst m = Returned a /\ fst (f a) = Raised e.
Proof.
  destruct m as [[a|e'] out]; simpl.
  - destruct (f a) as [r out'] eqn:E. simpl. split.
    + intros ->. right. exists a. rewrite E. auto.
    + intros [H|(a' & Ha & H)]; [discriminate|]. injection Ha as <-.
      rewrite E in H. exact H.
  - split; [intros H; left; injection H as ->; reflexivity|].
    intros [H|H]; [injection H as ->; reflexivity|].
    destruct H as [a [H _]]. discriminate H.
Qed.

Lemma bind_ext {A B} (m : io A) (f g : A -> io B) :
  (forall a, f a = g a) -> bind m f = bind m g.
Proof. intros H. destruct m as [[a|e] out]; simpl; [rewrite H|]; reflexivity. Qed.

(** On a host that never fails the scanner is the scanner of the file
    system model. *)
Lemma scan_file_of_fs (fs : FS) (self : Scanner) (path : string) :
  Host.scan_file (Host.of_fs fs) self path = scan_file self fs path.
Proof. reflexivity. Qed.

Lemma scan_paths_of_fs (fs : FS) (self : Scanner) (paths : list string) :
  forall results,
  Host.scan_paths (Host.of_fs fs) self paths results = scan_paths self fs paths results.
Proof.
  induction paths as [|path l IH]; intros results; [reflexivity|].
  cbn [Host.scan_paths scan_paths]. unfold Host.call. cbn [Host.path_is_file Host.of_fs].
  rewrite bind_ret. rewrite scan_file_of_fs.
  destruct (fs_is_file fs path && should_scan self path); [|apply IH].
  apply bind_ext. intros usage. apply IH.
Qed.

Lemma scan_directory_of_fs (fs : FS) (self : Scanner) (directory : string) :
  Host.scan_directory (Host.of_fs fs) self directory
  = scan_directory self fs directory.
Proof.
  unfold Host.scan_directory, scan_directory, Host.call.
  cbn [Host.path_exists Host.path_rglob Host.of_fs]. rewrite bind_ret.
  destruct (negb (fs_exists fs directory)); [reflexivity|].
  unfold rglob. apply bind_ext. intros paths. apply scan_paths_of_fs.
Qed.

Lemma scan_directories_of_fs (fs : FS) (self : Scanner) (directories : list string) :
  Host.scan_directories (Host.of_fs fs) self directories
  = scan_directories self fs directories.
Proof.
  unfold Host.scan_directories, scan_directories.
  generalize (∅ : gmap string FileUsage).
  induction directories as [|d l IH]; intros results; [reflexivity|].
  cbn [Host.scan_directories_from scan_directories_from].
  rewrite scan_directory_of_fs. apply bind_ext. intros m. apply IH.
Qed.

Lemma scan_content_cases (h : Host.host) (self : Scanner) (content label : string) :
  let usage := fold_left (fun usage script => merge usage (analyze_script script))
                         (extract_hyperscript content) FileUsage_new in
  let line := Scanned label (sorted (commands usage)) (sorted (blocks usage))
                      (positional usage) in
  Host.scan_content h self content label =
  if debug self && FileUsage_bool usage
  then match Host.stdout_write h line with
       | Some e => (Raised e, [])
       | None => (Returned usage, [line])
       end
  else (Returned usage, []).
Proof.
  cbn zeta. unfold Host.scan_content.
  destruct (debug self && FileUsage_bool _); [|reflexivity].
  unfold Host.print. destruct (Host.stdout_write h _); reflexivity.
Qed.

Lemma scan_content_raises (h : Host.host) (self : Scanner) (content label : string) e :
  fst (Host.scan_content h self content label) = Raised e ->
  debug self = true /\ exists d, Host.stdout_write h d = Some e.
Proof.
  rewrite scan_content_cases.
  destruct (debug self) eqn:Hd; simpl; [|discriminate].
  destruct (FileUsage_bool _); [|discriminate].
  destruct (Host.stdout_write h _) as [e'|] eqn:E; [|discriminate].
  simpl. intros [= ->]. eauto.
Qed.

(** C5, as stated, fails in debug mode when the stream cannot encode the
    error line: the read fails with [FileNotFoundError], the handler's
    print raises, and [scan_file] raises instead of returning the empty
    usage. *)
Lemma scan_file_raises_when_print_fails :
  ~ (forall e, Host.path_read_text Host.deaf "missing.html" = inl e ->
               is_Exception e = true ->
               fst (Host.scan_file Host.deaf debug_scanner "missing.html")
               = Returned FileUsage_new).
Proof.
  intros H. specialize (H FileNotFoundError eq_refl eq_refl).
  vm_compute in H. discriminate H.
Qed.

(** C5 (amended): when the read fails with an [Exception] and debug is
    off, or the error line can be written, [scan_file] returns the empty
    usage; and whatever [scan_file] raises after a failed read was
    raised by the debug print, never by the read. *)
Theorem scan_file_read_failure
    (h : Host.host) (self : Scanner) (path : string) (e : exn) :
  Host.path_read_text h path = inl e ->
  is_Exception e = true ->
  (debug self = false \/ Host.stdout_write h (ErrorReading path e) = None ->
     fst (Host.scan_file h self path) = Returned FileUsage_new
     /\ commands FileUsage_new = ∅ /\ blocks FileUsage_new = ∅
     /\ positional FileUsage_new = false)
  /\ (forall e', fst (Host.scan_file h self path) = Raised e' ->
        debug self = true
        /\ Host.stdout_write h (ErrorReading path e) = Some e').
Proof.
  intros Hr He. unfold Host.scan_file, Host.call. rewrite Hr. simpl. rewrite He.
  unfold Host.print. split.
  - intros [Hd|Hw].
    + rewrite Hd. simpl. auto.
    + destruct (debug self); [rewrite Hw|]; simpl; auto.
  - intros e'. destruct (debug self); [|simpl; discriminate].
    destruct (Host.stdout_write h (ErrorReading path e)) as [e0|]; simpl;
      [|discriminate].
    intros [= ->]. auto.
Qed.

Lemma scan_file_read_failure_witness :
  fst (Host.scan_file Host.deaf default_scanner "missing.html")
  = Returned FileUsage_new.
Proof.
  apply (proj1 (scan_file_read_failure Host.deaf default_scanner "missing.html"
                  FileNotFoundError eq_refl eq_refl)).
  left. reflexivity.
Defined.

(** C6, as stated, fails for a root whose name is too long: the root
    does not exist, [exists()] raises instead of answering, and so does
    [scan_directory]. *)
Lemma scan_directory_raises_on_long_root :
  ~ (Host.sound Host.long_names ->
     Host.present Host.long_names long_root = false ->
     fst (Host.scan_directory Host.long_names default_scanner long_root)
     = Returned ∅).
Proof.
  intros H.
  assert (Hs : Host.sound Host.long_names).
  { intros p b. unfold Host.long_names. simpl.
    destruct (255 <? String.length p); [discriminate|]. intros [= <-]. reflexivity. }
  specialize (H Hs eq_refl). vm_compute in H. discriminate H.
Qed.

(** C6 (amended): for every root that does not exist and for which
    [exists()] answers, [scan_directory] returns the empty mapping,
    raises nothing and prints nothing. *)
Theorem scan_directory_absent_root
    (h : Host.host) (self : Scanner) (root : string) (answer : bool) :
  Host.sound h ->
  Host.present h root = false ->
  Host.path_exists h root = inr answer ->
  Host.scan_directory h self root = (Returned ∅, []).
Proof.
  intros Hs Hp He. rewrite (Hs root answer He), Hp in He.
  unfold Host.scan_directory, Host.call. rewrite He. reflexivity.
Qed.

Lemma scan_directory_absent_root_witness :
  Host.scan_directory Host.long_names debug_scanner "templates" = (Returned ∅, []).
Proof.
  apply (scan_directory_absent_root Host.long_names debug_scanner "templates" false).
  - intros p b. unfold Host.long_names. simpl.
    destruct (255 <? String.length p); [discriminate|]. intros [= <-]. reflexivity.
  - reflexivity.
  - reflexivity.
Defined.

Lemma scan_content_raised (h : Host.host) (self : Scanner) (content label : string) e :
  fst (Host.scan_content h self content label) = Raised e ->
  Host.scan_content h self content label = (Raised e, []).
Proof.
  rewrite scan_content_cases.
  destruct (debug self && FileUsage_bool _); [|discriminate].
  destruct (Host.stdout_write h _) as [e'|]; [|discriminate].
  simpl. intros [= ->]. reflexivity.
Qed.

Lemma scan_file_raises (h : Host.host) (self : Scanner) (path : string) (e : exn) :
  fst (Host.scan_file h self path) = Raised e ->
  (Host.path_read_text h path = inl e /\ is_Exception e = false)
  \/ (debug self = true /\ exists d, Host.stdout_write h d = Some e).
Proof.
  unfold Host.scan_file, Host.call.
  destruct (Host.path_read_text h path) as [e0|content] eqn:Hr.
  - simpl. destruct (is_Exception e0) eqn:He0.
    + unfold Host.print. destruct (debug self) eqn:Hd; [|simpl; discriminate].
      destruct (Host.stdout_write h (ErrorReading path e0)) as [e1|] eqn:Hw;
        simpl; [|discriminate].
      intros [= ->]. right. eauto.
    + simpl. intros [= ->]. left. auto.
  - rewrite bind_ret.
    destruct (Host.scan_content h self content path) as [[u|e0] out] eqn:Hc;
      [simpl; discriminate|].
    assert (Hc' : fst (Host.scan_content h self content path) = Raised e0)
      by (rewrite Hc; reflexivity).
    destruct (scan_content_raises _ _ _ _ _ Hc') as [Hd Hex].
    simpl. destruct (is_Exception e0).
    + rewrite Hd. unfold Host.print.
      destruct (Host.stdout_write h (ErrorReading path e0)) as [e1|] eqn:Hw;
        simpl; [|discriminate].
      intros [= ->]. right. eauto.
    + simpl. intros [= ->]. right. auto.
Qed.

(** X6: [scan_file] on a host whose calls can fail. When the file is
    read and [scan_content] returns, [scan_file] is that [scan_content];
    when the debug print inside [scan_content] raises an [Exception],
    the handler catches it and the file is reported with the empty
    usage; [scan_file] raises only an exception of the read that is not
    an [Exception] or, in debug mode, one raised by a print. *)
Theorem scan_file_cases (h : Host.host) (self : Scanner) (path : string) :
  (forall content u, Host.path_read_text h path = inr content ->
     fst (Host.scan_content h self content path) = Returned u ->
     Host.scan_file h self path = Host.scan_content h self content path)
  /\ (forall content e, Host.path_read_text h path = inr content ->
        fst (Host.scan_content h self content path) = Raised e ->
        is_Exception e = true ->
        Host.stdout_write h (ErrorReading path e) = None ->
        Host.scan_file h self path = (Returned FileUsage_new, [ErrorReading path e]))
  /\ (forall e, fst (Host.scan_file h self path) = Raised e ->
        (Host.path_read_text h path = inl e /\ is_Exception e = false)
        \/ (debug self = true /\ exists d, Host.stdout_write h d = Some e)).
Proof.
  split; [|split].
  - intros content u Hr Hu. unfold Host.scan_file, Host.call. rewrite Hr, bind_ret.
    destruct (Host.scan_content h self content path) as [[u'|e] out]; [reflexivity|].
    discriminate Hu.
  - intros content e Hr Hc He Hw.
    destruct (scan_content_raises _ _ _ _ _ Hc) as [Hd _].
    unfold Host.scan_file, Host.call. rewrite Hr, bind_ret.
    rewrite (scan_content_raised _ _ _ _ _ Hc). simpl. rewrite He, Hd.
    unfold Host.print. rewrite Hw. reflexivity.
  - intros e. apply scan_file_raises.
Qed.

Lemma scan_file_cases_witness :
  Host.scan_file Host.picky debug_scanner "menu.html"
  = (Returned FileUsage_new, [ErrorReading "menu.html" UnicodeEncodeError])
  /\ fst (Host.scan_file Host.picky default_scanner "menu.html")
     = Returned {| commands := {[ "toggle" ]}; blocks := ∅; positional := false |}.
Proof.
  destruct (scan_file_cases Host.picky debug_scanner "menu.html") as (_ & H2 & _).
  destruct (scan_file_cases Host.picky default_scanner "menu.html") as (H1 & _ & _).
  split.
  - apply (H2 "_='toggle .menu'" UnicodeEncodeError); reflexivity.
  - rewrite (H1 "_='toggle .menu'"
               {| commands := {[ "toggle" ]}; blocks := ∅; positional := false |});
      vm_compute; reflexivity.
Defined.





End HostFacts.
